(** * Network bridge device plugin (pkg/network/bridge/plugin.go)

    A shallow embedding of the bridge device plugin: the device advertiser
    (ListAndWatch), the allocator (Allocate), the assignment pipeline
    (attachPods) and the attachment engine (attachPodToBridge), together with
    the properties the design document states about them.

    Everything the plugin obtains from outside (kernel link table, network
    namespaces, docker lookups, the clock, the random source, the JSON
    encoder's failure) is an explicit input of the model, so that every
    statement quantifies over all behaviours of the environment. *)

From Stdlib Require Import ZArith String Ascii List Lia Bool DecimalString.
From stdpp Require Import base list strings.

Open Scope string_scope.

(** ** Constants of the package *)

Definition fakeDevicePath : string := "/var/run/device-plugin-network-bridge-fakedev".
Definition nicsPoolSize : nat := 100.
Definition interfaceNameLen : nat := 15.
Definition interfaceNamePrefix : string := "nic_".
Definition letterBytes : string := "abcdefghijklmnopqrstuvwxyz0123456789".
(** [time.Duration] counts nanoseconds; [30 * time.Minute]. *)
Definition Minute : Z := 60 * 1000000000.
Definition assignmentTimeout : Z := 30 * Minute.
Definition protocolEthernet : string := "Ethernet".
Definition envVarNamePrefix : string := "NETWORK_INTERFACE_RESOURCES_".
Definition envVarNameSuffixLen : nat := 8.

(** [pluginapi.Healthy] of the device plugin API. *)
Definition Healthy : string := "Healthy".

(** ** fmt verbs used by the plugin *)

(** [%d] on a non-negative int. *)
Definition fmt_d (i : nat) : string := NilZero.string_of_uint (Nat.to_uint i).

(** [%02d] on a non-negative int: decimal, padded with zeros on the left up
    to width two. *)
Definition fmt_02d (i : nat) : string :=
  let s := fmt_d i in
  if Nat.ltb (String.length s) 2 then "0" ++ s else s.

(** ** Device advertiser *)

Module Advertiser.

Record Device := mkDevice { ID : string; Health : string }.

Record ListAndWatchResponse := mkResponse { Devices : list Device }.

(** The loop [for i := 0; i < nicsPoolSize; i++] of generateBridgeDevices,
    appending one device per index. *)
Fixpoint generateLoop (bridge : string) (i n : nat) (bridgeDevs : list Device) : list Device :=
  match n with
  | O => bridgeDevs
  | S n' =>
      generateLoop bridge (S i) n'
        (bridgeDevs ++ [mkDevice (bridge ++ "-" ++ fmt_02d i) Healthy])
  end.

Definition generateBridgeDevices (bridge : string) : list Device :=
  generateLoop bridge 0 nicsPoolSize [].

(** The closure [emitResponse]: the message handed to [s.Send]. *)
Definition emitResponse (bridge : string) (bridgeExists : bool) : ListAndWatchResponse :=
  if bridgeExists then mkResponse (generateBridgeDevices bridge) else mkResponse [].

(** One iteration of the polling loop: [doesBridgeExist] is what
    [bridgeExists(nbdp.bridge)] answered at this tick. The result is the
    messages sent during the tick and the remembered state. *)
Definition watchTick (bridge : string) (didBridgeExist doesBridgeExist : bool)
  : list ListAndWatchResponse * bool :=
  if negb (Bool.eqb didBridgeExist doesBridgeExist)
  then ([emitResponse bridge doesBridgeExist], doesBridgeExist)
  else ([], didBridgeExist).

(** The loop over a finite prefix of ticks; one list of sent messages per
    tick. *)
Fixpoint watchLoop (bridge : string) (didBridgeExist : bool) (polls : list bool)
  : list (list ListAndWatchResponse) :=
  match polls with
  | [] => []
  | doesBridgeExist :: rest =>
      let '(sent, did') := watchTick bridge didBridgeExist doesBridgeExist in
      sent :: watchLoop bridge did' rest
  end.

(** ListAndWatch, run on the answer [first] of the probe made before the
    loop and on the answers [polls] of the probes of the first ticks. The
    stream is the initial message followed by the messages of every tick. *)
Definition ListAndWatch (bridge : string) (first : bool) (polls : list bool)
  : list ListAndWatchResponse :=
  emitResponse bridge first :: concat (watchLoop bridge first polls).

(** The observation preceding tick [i]: the initial probe for the first
    tick, the probe of the tick before otherwise. *)
Definition observedBefore (first : bool) (polls : list bool) (i : nat) : bool :=
  match i with
  | O => first
  | S j => nth j polls first
  end.

(** Tick [i] sees an existence transition. *)
Definition transitionAt (first : bool) (polls : list bool) (i : nat) : bool :=
  negb (Bool.eqb (observedBefore first polls i) (nth i polls first)).

(** Number of existence transitions in the observation sequence. *)
Fixpoint countTransitions (prev : bool) (polls : list bool) : nat :=
  match polls with
  | [] => 0
  | b :: rest => (if Bool.eqb prev b then 0 else 1) + countTransitions b rest
  end.

(** The two decimal digits of an index below one hundred. *)
Definition twoDigits (i : nat) : string :=
  String (ascii_of_nat (48 + i / 10)) (String (ascii_of_nat (48 + i mod 10)) EmptyString).

(** What tick [i] puts on the stream, read off the observations alone. *)
Definition tickMessages (bridge : string) (first : bool) (polls : list bool) (i : nat)
  : list ListAndWatchResponse :=
  if transitionAt first polls i then [emitResponse bridge (nth i polls first)] else [].

End Advertiser.

(** ** The random source (math/rand) and the clock

    [rand.Intn] is modelled over an arbitrary sequence of raw draws: the
    [k]-th call returns the [k]-th draw reduced into [[0, n)], so that every
    sequence of results the generator can produce is covered. *)

Record Rand := mkRand { draws : nat -> nat; drawn : nat }.

Definition Intn (n : nat) (r : Rand) : nat * Rand :=
  (draws r (drawn r) mod n, mkRand (draws r) (S (drawn r))).

(** [s[k]] on a string; the zero byte stands for the index out of range,
    which [randString] never produces. *)
Definition byteAt (s : string) (k : nat) : ascii :=
  match String.get k s with
  | Some c => c
  | None => Ascii.zero
  end.

(** The loop [for i := range b] of randString, filling [b] left to right. *)
Fixpoint randStringLoop (length : nat) (r : Rand) : string * Rand :=
  match length with
  | O => (EmptyString, r)
  | S n =>
      let '(k, r1) := Intn (String.length letterBytes) r in
      let '(rest, r2) := randStringLoop n r1 in
      (String (byteAt letterBytes k) rest, r2)
  end.

Definition randString (length : nat) (r : Rand) : string * Rand :=
  randStringLoop length r.

Definition randInterfaceName (r : Rand) : string * Rand :=
  let suffixLength := interfaceNameLen - String.length interfaceNamePrefix in
  let '(suffix, r') := randString suffixLength r in
  (interfaceNamePrefix ++ suffix, r').

(** [strings.ToUpper] on the bytes of an ASCII string. *)
Definition toUpperByte (c : ascii) : ascii :=
  let n := nat_of_ascii c in
  if (97 <=? n)%nat && (n <=? 122)%nat then ascii_of_nat (n - 32) else c.

Fixpoint ToUpper (s : string) : string :=
  match s with
  | EmptyString => EmptyString
  | String c rest => String (toUpperByte c) (ToUpper rest)
  end.

(** [time.Now()]: the [k]-th call reads the [k]-th instant, in nanoseconds. *)
Record Clock := mkClock { instants : nat -> Z; reads : nat }.

Definition Now (c : Clock) : Z * Clock :=
  (instants c (reads c), mkClock (instants c) (S (reads c))).

(** The random source after [n] more draws, the clock after [n] more
    readings. *)
Definition advance (r : Rand) (n : nat) : Rand := mkRand (draws r) (drawn r + n).
Definition later (c : Clock) (n : nat) : Clock := mkClock (instants c) (reads c + n).

(** ** encoding/json on the descriptor types

    The encoder of string values (HTML escaping on, as [json.Marshal] has
    it) and of the two struct types of the plugin, fields in declaration
    order under their tag names. *)

Module Json.

Definition dquote : ascii := ascii_of_nat 34.
Definition backslash : ascii := ascii_of_nat 92.

Definition hexDigit (n : nat) : ascii := byteAt "0123456789abcdef" n.

(** [htmlSafeSet[b]] for a byte below 0x80. *)
Definition htmlSafe (b : nat) : bool :=
  (32 <=? b)%nat && negb (b =? 34)%nat && negb (b =? 38)%nat
  && negb (b =? 60)%nat && negb (b =? 62)%nat && negb (b =? 92)%nat.

(** The encoding of one byte below 0x80. *)
Definition escapeByte (c : ascii) : string :=
  let b := nat_of_ascii c in
  if htmlSafe b then String c EmptyString
  else if (b =? 92)%nat || (b =? 34)%nat then String backslash (String c EmptyString)
  else if (b =? 10)%nat then String backslash "n"
  else if (b =? 13)%nat then String backslash "r"
  else if (b =? 9)%nat then String backslash "t"
  else String backslash "u00"
         ++ String (hexDigit (b / 16)) (String (hexDigit (b mod 16)) EmptyString).

Definition between (lo hi : nat) (c : ascii) : bool :=
  (lo <=? nat_of_ascii c)%nat && (nat_of_ascii c <=? hi)%nat.

(** The size [utf8.DecodeRuneInString] reports for a well-formed rune at
    the head of [s] that starts with a byte from 0x80 on; [0] stands for
    [(RuneError, 1)]. *)
Definition runeSize (s : string) : nat :=
  match s with
  | EmptyString => 0
  | String b0 rest =>
      let n0 := nat_of_ascii b0 in
      if between 194 223 b0 then
        match rest with
        | String b1 _ => if between 128 191 b1 then 2 else 0
        | _ => 0
        end
      else if between 224 239 b0 then
        match rest with
        | String b1 (String b2 _) =>
            let lo := if (n0 =? 224)%nat then 160 else 128 in
            let hi := if (n0 =? 237)%nat then 159 else 191 in
            if between lo hi b1 && between 128 191 b2 then 3 else 0
        | _ => 0
        end
      else if between 240 244 b0 then
        match rest with
        | String b1 (String b2 (String b3 _)) =>
            let lo := if (n0 =? 240)%nat then 144 else 128 in
            let hi := if (n0 =? 244)%nat then 143 else 191 in
            if between lo hi b1 && between 128 191 b2 && between 128 191 b3
            then 4 else 0
        | _ => 0
        end
      else 0
  end.

(** The rune at the head of [s] is U+2028 or U+2029 (E2 80 A8, E2 80 A9). *)
Definition lineSeparator (s : string) : option nat :=
  match s with
  | String b0 (String b1 (String b2 _)) =>
      if (nat_of_ascii b0 =? 226)%nat && (nat_of_ascii b1 =? 128)%nat
         && between 168 169 b2
      then Some (nat_of_ascii b2 mod 16) else None
  | _ => None
  end.

(** The scan of [encodeState.string]. [copy] counts the bytes still to be
    copied of the rune being passed through, [drop] the bytes still to be
    skipped of a rune already written in escaped form. *)
Fixpoint encodeBytes (copy drop : nat) (s : string) : string :=
  match s with
  | EmptyString => EmptyString
  | String c rest =>
      match copy, drop with
      | S k, _ => String c (encodeBytes k drop rest)
      | O, S k => encodeBytes 0 k rest
      | O, O =>
          if (nat_of_ascii c <? 128)%nat then escapeByte c ++ encodeBytes 0 0 rest
          else
            match runeSize s with
            | O => String backslash "ufffd" ++ encodeBytes 0 0 rest
            | S size' =>
                match lineSeparator s with
                | Some d =>
                    String backslash "u202" ++ String (hexDigit d) EmptyString
                      ++ encodeBytes 0 size' rest
                | None => String c (encodeBytes size' 0 rest)
                end
            end
      end
  end.

(** A string value: the escaped bytes between double quotes. *)
Definition encodeString (s : string) : string :=
  String dquote (encodeBytes 0 0 s) ++ String dquote EmptyString.

(** Elements of an array, separated by commas. *)
Fixpoint joinComma (items : list string) : string :=
  match items with
  | [] => EmptyString
  | [x] => x
  | x :: rest => x ++ "," ++ joinComma rest
  end.

End Json.

(** ** Data model *)

Record Assignment := mkAssignment {
  DeviceID : string;
  ContainerPath : string;
  Created : Z
}.

Record vnic := mkVnic { vnicName : string; Protocol : string }.

Record networkInterfaceResources := mkResources {
  Name : string;
  Interfaces : list vnic
}.

(** [json.Marshal] on a [vnic]. *)
Definition encodeVnic (v : vnic) : string :=
  "{" ++ Json.encodeString "name" ++ ":" ++ Json.encodeString (vnicName v)
      ++ "," ++ Json.encodeString "protocol" ++ ":" ++ Json.encodeString (Protocol v)
      ++ "}".

(** [json.Marshal] on a [[]vnic]: a nil slice is written [null]. The slice
    of Allocate is nil exactly when nothing was appended to it. *)
Definition encodeVnics (vs : list vnic) : string :=
  match vs with
  | [] => "null"
  | _ => "[" ++ Json.joinComma (map encodeVnic vs) ++ "]"
  end.

Definition encodeResources (r : networkInterfaceResources) : string :=
  "{" ++ Json.encodeString "name" ++ ":" ++ Json.encodeString (Name r)
      ++ "," ++ Json.encodeString "interfaces" ++ ":" ++ encodeVnics (Interfaces r)
      ++ "}".

Definition getAssignmentPath (bridge nic : string) : string :=
  "/tmp/device-plugin-network-bridge/" ++ bridge ++ "/" ++ nic.

(** ** Allocator *)

Module Allocator.

Record DeviceSpec := mkDeviceSpec {
  SpecContainerPath : string;
  HostPath : string;
  Permissions : string
}.

Record ContainerAllocateRequest := mkRequest { DevicesIDs : list string }.

Record ContainerAllocateResponse := mkContainerResponse {
  Devices : list DeviceSpec;
  Envs : list (string * string)
}.

Record AllocateResponse := mkAllocateResponse {
  ContainerResponses : list ContainerAllocateResponse
}.

(** What a call of Allocate does to the outside, in program order: a send
    on [assignmentCh], and a call of [json.Marshal] with its outcome. *)
Inductive Event :=
| Sent (a : Assignment)
| Marshalled (v : networkInterfaceResources) (ok : bool).

(** The state threaded through a call: random source, clock and the events
    so far (oldest first). The channel is taken to accept every send. *)
Record State := mkState {
  rng : Rand;
  clock : Clock;
  events : list Event
}.

Definition emit (e : Event) (st : State) : State :=
  mkState (rng st) (clock st) (events st ++ [e])%list.

(** The assignments pushed on the channel, in the order of the sends. *)
Definition sent (evs : list Event) : list Assignment :=
  omap (fun e => match e with Sent a => Some a | Marshalled _ _ => None end) evs.

Section Allocate.

(** The package constant [resourceNamespace], declared in another file of
    the package. *)
Variable resourceNamespace : string.

(** The descriptors on which [json.Marshal] reports an error, with the
    error's text. *)
Variable marshalError : networkInterfaceResources -> option string.

Definition jsonMarshal (v : networkInterfaceResources) : string + string :=
  match marshalError v with
  | Some err => inr err
  | None => inl (encodeResources v)
  end.

(** The loop [for _, nic := range req.DevicesIDs]. *)
Fixpoint devicesLoop (bridge : string) (ids : list string)
    (devices : list DeviceSpec) (vnics : list vnic) (st : State)
  : list DeviceSpec * list vnic * State :=
  match ids with
  | [] => (devices, vnics, st)
  | nic :: rest =>
      let assignmentPath := getAssignmentPath bridge nic in
      let dev := mkDeviceSpec assignmentPath fakeDevicePath "r" in
      let devices := (devices ++ [dev])%list in
      let vnics := (vnics ++ [mkVnic nic protocolEthernet])%list in
      let '(now, clk) := Now (clock st) in
      let st := emit (Sent (mkAssignment nic assignmentPath now))
                     (mkState (rng st) clk (events st)) in
      devicesLoop bridge rest devices vnics st
  end.

(** The body of the loop over the container requests: the response entry
    of one request, if any. *)
Definition allocateOne (bridge : string) (req : ContainerAllocateRequest) (st : State)
  : option ContainerAllocateResponse * State :=
  let '(devices, vnics, st) := devicesLoop bridge (DevicesIDs req) [] [] st in
  let vnicsPerInterface :=
    mkResources (resourceNamespace ++ "/" ++ bridge) vnics in
  let '(suffix, r) := randString envVarNameSuffixLen (rng st) in
  let envVarName := envVarNamePrefix ++ ToUpper suffix in
  let st := mkState r (clock st) (events st) in
  match jsonMarshal vnicsPerInterface with
  | inr _ => (None, emit (Marshalled vnicsPerInterface false) st)
  | inl marshalled =>
      let envs := [(envVarName, marshalled)] in
      (Some (mkContainerResponse devices envs),
       emit (Marshalled vnicsPerInterface true) st)
  end.

(** The loop [for _, req := range r.ContainerRequests]. *)
Fixpoint requestsLoop (bridge : string) (reqs : list ContainerAllocateRequest)
    (responses : list ContainerAllocateResponse) (st : State)
  : list ContainerAllocateResponse * State :=
  match reqs with
  | [] => (responses, st)
  | req :: rest =>
      let '(resp, st) := allocateOne bridge req st in
      let responses :=
        match resp with
        | Some c => (responses ++ [c])%list
        | None => responses
        end in
      requestsLoop bridge rest responses st
  end.

(** Allocate: the response and the error it returns, and the state after. *)
Definition Allocate (bridge : string) (r : list ContainerAllocateRequest) (st : State)
  : (AllocateResponse * option string) * State :=
  let '(responses, st) := requestsLoop bridge r [] st in
  ((mkAllocateResponse responses, None), st).

End Allocate.

(** *** The outcome of a call, read off its inputs *)

Section Expected.

Variable resourceNamespace : string.
Variable marshalError : networkInterfaceResources -> option string.
Variable bridge : string.

(** The descriptor of a request: one interface per device ID, in order. *)
Definition descriptorOf (req : ContainerAllocateRequest) : networkInterfaceResources :=
  mkResources (resourceNamespace ++ "/" ++ bridge)
    (map (fun nic => mkVnic nic protocolEthernet) (DevicesIDs req)).

(** The device specs of a request: one per device ID, in order. *)
Definition devicesOf (req : ContainerAllocateRequest) : list DeviceSpec :=
  map (fun nic => mkDeviceSpec (getAssignmentPath bridge nic) fakeDevicePath "r")
    (DevicesIDs req).

(** The eight letters drawn for the [i]-th request of a call that starts
    with the random source [r]: every request draws eight times. *)
Definition requestSuffix (r : Rand) (i : nat) : string :=
  fst (randString envVarNameSuffixLen
         (mkRand (draws r) (drawn r + envVarNameSuffixLen * i))).

Definition requestName (r : Rand) (i : nat) : string :=
  envVarNamePrefix ++ ToUpper (requestSuffix r i).

(** The response entry of the [i]-th request, absent when the encoder
    reports an error on its descriptor. *)
Definition entryOf (r : Rand) (i : nat) (req : ContainerAllocateRequest)
  : option ContainerAllocateResponse :=
  match marshalError (descriptorOf req) with
  | Some _ => None
  | None =>
      Some (mkContainerResponse (devicesOf req)
              [(requestName r i, encodeResources (descriptorOf req))])
  end.

(** The assignments of a request, stamped with successive readings of the
    clock [clk]. *)
Definition assignmentsOf (clk : Clock) (ids : list string) : list Assignment :=
  imap (fun k nic =>
          mkAssignment nic (getAssignmentPath bridge nic) (instants clk (reads clk + k)))
       ids.

(** The requests whose descriptor the encoder accepts. *)
Definition marshals (req : ContainerAllocateRequest) : bool :=
  match marshalError (descriptorOf req) with Some _ => false | None => true end.

(** The events of a call, request after request: the sends of a request,
    then the call of the encoder on its descriptor. *)
Fixpoint eventsOf (clk : Clock) (reqs : list ContainerAllocateRequest) : list Event :=
  match reqs with
  | [] => []
  | req :: rest =>
      (map Sent (assignmentsOf clk (DevicesIDs req))
         ++ [Marshalled (descriptorOf req) (marshals req)]
         ++ eventsOf (later clk (length (DevicesIDs req))) rest)%list
  end.

(** The positions, in the call, of the requests whose descriptor the
    encoder accepts. *)
Definition marshalling (reqs : list ContainerAllocateRequest) : list nat :=
  omap id (imap (fun i req => if marshals req then Some i else None) reqs).

End Expected.

(** The raw draws behind the suffix of the [i]-th request, as indices into
    [letterBytes]. *)
Definition requestDraws (r : Rand) (i : nat) : list nat :=
  map (fun j => draws r (drawn r + envVarNameSuffixLen * i + j) mod String.length letterBytes)
      (seq 0 envVarNameSuffixLen).

(** A string in double quotes, as the interface document writes the names
    of the JSON fields. *)
Definition quoted (s : string) : string :=
  String Json.dquote (s ++ String Json.dquote EmptyString).

(** The JSON text the interface document gives for one interface and for
    the value of the environment variable. *)
Definition documentInterface (d : string) : string :=
  "{" ++ quoted "name" ++ ":" ++ Json.encodeString d ++ ","
      ++ quoted "protocol" ++ ":" ++ quoted "Ethernet" ++ "}".




(** The environment-variable names of a response, entry by entry. *)
Definition envNames (resp : AllocateResponse) : list string :=
  flat_map (fun c => map fst (Envs c)) (ContainerResponses resp).

(** An upper-case letter or a digit. *)
Definition upperAlnum (c : ascii) : bool :=
  let n := nat_of_ascii c in
  ((65 <=? n)%nat && (n <=? 90)%nat) || ((48 <=? n)%nat && (n <=? 57)%nat).

(** The upper-case letter of an index into [letterBytes]. *)
Definition upperLetter (k : nat) : ascii := toUpperByte (byteAt letterBytes k).

End Allocator.

(** ** Attachment engine

    The kernel side is a model of what the engine's calls act on: the table
    of veth pairs (a pair is created and destroyed as a unit, under the name
    of its host end) and the network namespace of the calling thread. Every
    call of netlink and netns can fail; which ones do is an input. *)

Module Engine.

Definition NsHandle := nat.

Record Link := mkLink {
  Index : Z;
  MTU : Z;
  NetNsID : Z
}.

Record Veth := mkVeth {
  LinkName : string;
  MasterIndex : Z;
  VethMTU : Z;
  VethNetNsID : Z;
  PeerName : string
}.

(** The calls the engine makes, with their arguments. *)
Inductive Call :=
| LinkByName (name : string)
| LinkAdd (link : Veth)
| LinkSetUp (name : string)
| LinkSetNsPid (peer : string) (pid : Z)
| NsGet
| NsGetFromPid (pid : Z)
| NsSet (ns : NsHandle)
| LinkSetMTU (peer : string) (mtu : Z)
| LinkDel (link : Veth).

(** The places of attachPodToBridge where a call is made; each is reached
    at most once in a run. [AtRollback] is the [netlink.LinkDel(link)] of
    whichever failure branch is taken, [AtRestore] the deferred
    [netns.Set(originalNS)]. *)
Inductive Site :=
| AtBridgeLookup | AtLinkAdd | AtHostUp | AtPeerLookup | AtSetNsPid
| AtNsGet | AtNsFromPid | AtNsSet | AtPeerLookupInNs | AtPeerSetMTU
| AtPeerUp | AtRollback | AtRestore.

(** The environment of one run: the error, if any, each call answers with,
    and the values the lookups yield when they succeed. *)
Record Env := mkEnv {
  fault : Site -> option string;
  bridgeLink : Link;
  podNs : NsHandle
}.

Record World := mkWorld {
  links : list Veth;
  threadNs : NsHandle;
  rng : Rand;
  calls : list (Call * bool)
}.

Inductive Outcome :=
| Returned (err : option string)
| Panicked (err : string).


(** What a call that succeeds does to the kernel state. *)
Definition effect (c : Call) (w : World) : World :=
  match c with
  | LinkAdd v => mkWorld (v :: links w) (threadNs w) (rng w) (calls w)
  | LinkDel v =>
      mkWorld (List.filter (fun x => negb (String.eqb (LinkName x) (LinkName v))) (links w))
              (threadNs w) (rng w) (calls w)
  | NsSet ns => mkWorld (links w) ns (rng w) (calls w)
  | _ => w
  end.

Definition record (c : Call) (ok : bool) (w : World) : World :=
  mkWorld (links w) (threadNs w) (rng w) (calls w ++ [(c, ok)])%list.

(** A call made at site [s]: it fails with the error of the environment and
    changes nothing, or succeeds and takes effect. *)
Definition call (env : Env) (s : Site) (c : Call) (w : World) : option string * World :=
  match fault env s with
  | Some err => (Some err, record c false w)
  | None => (None, effect c (record c true w))
  end.

(** [netlink.LinkDel(link)] as the failure branches write it: the error of
    the call is not looked at. *)
Definition rollback (env : Env) (link : Veth) (w : World) : World :=
  snd (call env AtRollback (LinkDel link) w).

(** The statements after the [defer], up to the [return] they reach. *)
Definition afterSwitch (env : Env) (link : Veth) (nicName : string) (w : World)
  : option string * World :=
  match call env AtPeerLookupInNs (LinkByName nicName) w with
  | (Some err, w) => (Some err, rollback env link w)
  | (None, w) =>
  match call env AtPeerSetMTU (LinkSetMTU nicName (VethMTU link)) w with
  | (Some err, w) => (Some err, rollback env link w)
  | (None, w) =>
  match call env AtPeerUp (LinkSetUp nicName) w with
  | (Some err, w) => (Some err, rollback env link w)
  | (None, w) => (None, w)
  end end end.

(** The deferred closure, run when the function returns with [result]. *)
Definition deferredRestore (env : Env) (originalNS : NsHandle)
    (result : option string) (w : World) : Outcome * World :=
  match call env AtRestore (NsSet originalNS) w with
  | (Some setErr, w) => (Panicked setErr, w)
  | (None, w) => (Returned result, w)
  end.

Definition attachPodToBridge (env : Env) (bridgeName nicName : string)
    (containerPid : Z) (w : World) : Outcome * World :=
  let '(linkName, r) := randInterfaceName (rng w) in
  let w := mkWorld (links w) (threadNs w) r (calls w) in
  match call env AtBridgeLookup (LinkByName bridgeName) w with
  | (Some err, w) => (Returned (Some err), w)
  | (None, w) =>
  let bridge := bridgeLink env in
  let link := mkVeth linkName (Index bridge) (MTU bridge) (NetNsID bridge) nicName in
  match call env AtLinkAdd (LinkAdd link) w with
  | (Some err, w) => (Returned (Some err), w)
  | (None, w) =>
  match call env AtHostUp (LinkSetUp linkName) w with
  | (Some err, w) => (Returned (Some err), rollback env link w)
  | (None, w) =>
  match call env AtPeerLookup (LinkByName nicName) w with
  | (Some err, w) => (Returned (Some err), rollback env link w)
  | (None, w) =>
  match call env AtSetNsPid (LinkSetNsPid nicName containerPid) w with
  | (Some err, w) => (Returned (Some err), rollback env link w)
  | (None, w) =>
  match call env AtNsGet NsGet w with
  | (Some err, w) => (Returned (Some err), rollback env link w)
  | (None, w) =>
  let originalNS := threadNs w in
  match call env AtNsFromPid (NsGetFromPid containerPid) w with
  | (Some err, w) => (Returned (Some err), rollback env link w)
  | (None, w) =>
  let ns := podNs env in
  match call env AtNsSet (NsSet ns) w with
  | (Some err, w) => (Returned (Some err), rollback env link w)
  | (None, w) =>
  let '(result, w) := afterSwitch env link nicName w in
  deferredRestore env originalNS result w
  end end end end end end end end.

(** The run reached the point where the thread is in the namespace of the
    container: every call up to and including [netns.Set(ns)] succeeded. *)
Definition switched (env : Env) : bool :=
  forallb (fun s => match fault env s with None => true | Some _ => false end)
    [AtBridgeLookup; AtLinkAdd; AtHostUp; AtPeerLookup; AtSetNsPid;
     AtNsGet; AtNsFromPid; AtNsSet].

(** The veth pair was created: the lookup of the bridge and [LinkAdd]
    succeeded. *)
Definition created (env : Env) : bool :=
  forallb (fun s => match fault env s with None => true | Some _ => false end)
    [AtBridgeLookup; AtLinkAdd].

(** The name the run gives to the host end. *)
Definition hostLinkName (w : World) : string := fst (randInterfaceName (rng w)).

(** The veth the run creates. *)
Definition hostLink (env : Env) (nicName : string) (w : World) : Veth :=
  let bridge := bridgeLink env in
  mkVeth (hostLinkName w) (Index bridge) (MTU bridge) (NetNsID bridge) nicName.

End Engine.

(** ** container/list

    The doubly linked list of the Go library, as the library implements it:
    a ring of elements through the sentinel [root], each element pointing at
    its neighbours and at the list it belongs to. Elements live in a heap
    indexed by address; address [0] is [&l.root]. Dereferencing nil makes an
    operation answer [None] (the Go runtime panics there). *)

Module GoList.

(** Addresses of elements. *)
Abbreviation ptr := nat (only parsing).

Section Elements.

Variable V : Type.

Record Element := mkElement {
  next : option ptr;
  prev : option ptr;
  list_ : bool;           (* e.list == l; nil otherwise *)
  Value : option V
}.

Record List := mkList {
  heap : list Element;
  len : Z
}.

Definition root : ptr := 0.

Definition setNext (p : option ptr) (e : Element) : Element :=
  mkElement p (prev e) (list_ e) (Value e).
Definition setPrev (p : option ptr) (e : Element) : Element :=
  mkElement (next e) p (list_ e) (Value e).
Definition setList (b : bool) (e : Element) : Element :=
  mkElement (next e) (prev e) b (Value e).

(** [New()]: [root.next = root.prev = &root], [len = 0]. *)
Definition New : List :=
  mkList [mkElement (Some root) (Some root) false None] 0.

(** [l.Front()]. *)
Definition Front (l : List) : option ptr :=
  if (len l =? 0)%Z then None
  else el ← heap l !! root; next el.

(** [e.Next()]: [if p := e.next; e.list != nil && p != &e.list.root]. *)
Definition Next (l : List) (e : ptr) : option ptr :=
  match heap l !! e with
  | Some el =>
      if list_ el then
        match next el with
        | Some p => if (p =? root)%nat then None else Some p
        | None => None
        end
      else None
  | None => None
  end.

(** [l.insert(e, at)]. *)
Definition insert (e at_ : ptr) (l : List) : option List :=
  atEl ← heap l !! at_;
  let n := next atEl in                                   (* n := at.next *)
  let h := alter (setNext (Some e)) at_ (heap l) in        (* at.next = e *)
  let h := alter (setPrev (Some at_)) e h in               (* e.prev = at *)
  let h := alter (setNext n) e h in                        (* e.next = n *)
  n' ← n;
  _ ← h !! n';
  let h := alter (setPrev (Some e)) n' h in                (* n.prev = e *)
  let h := alter (setList true) e h in                     (* e.list = l *)
  Some (mkList h (len l + 1)).

(** [l.PushBack(v)]: a new element, inserted after [l.root.prev]. The
    [lazyInit] of the library does nothing on a list made with [New]. *)
Definition PushBack (v : V) (l : List) : option (ptr * List) :=
  rootEl ← heap l !! root;
  at_ ← prev rootEl;
  let e := length (heap l) in
  let l1 := mkList (heap l ++ [mkElement None None false (Some v)]) (len l) in
  l2 ← insert e at_ l1;
  Some (e, l2).

(** [l.remove(e)]. *)
Definition remove (e : ptr) (l : List) : option List :=
  el ← heap l !! e;
  p ← prev el;
  _ ← heap l !! p;
  let h := alter (setNext (next el)) p (heap l) in         (* e.prev.next = e.next *)
  el ← h !! e;
  n ← next el;
  _ ← h !! n;
  let h := alter (setPrev (prev el)) n h in                (* e.next.prev = e.prev *)
  let h := alter (setNext None) e h in                     (* e.next = nil *)
  let h := alter (setPrev None) e h in                     (* e.prev = nil *)
  let h := alter (setList false) e h in                    (* e.list = nil *)
  Some (mkList h (len l - 1)).

(** [l.Remove(e)]: [if e.list == l { l.remove(e) }]. *)
Definition Remove (e : ptr) (l : List) : option List :=
  el ← heap l !! e;
  if list_ el then remove e l else Some l.

(** [e.Value]. *)
Definition valueOf (l : List) (e : ptr) : option V :=
  el ← heap l !! e; Value el.

(** The loop [for e := l.Front(); e != nil; e = e.Next()] with an empty
    body: the addresses it goes through. *)
Fixpoint walk (fuel : nat) (l : List) (e : option ptr) : list ptr :=
  match fuel, e with
  | S f, Some p => p :: walk f l (Next l p)
  | _, _ => []
  end.

Definition toList (l : List) : list ptr :=
  walk (Z.to_nat (len l)) l (Front l).

(** *** The shape of a list

    What the operations keep true of a list made with [New]: the ring of
    [next] and [prev] pointers goes from the root through the elements of
    the list, in order, and back to the root; the elements whose [list]
    field is set are exactly those; [len] counts them. *)

Definition nextOf (h : list Element) (p : ptr) : option ptr := el ← h !! p; next el.
Definition prevOf (h : list Element) (p : ptr) : option ptr := el ← h !! p; prev el.
Definition inList (h : list Element) (p : ptr) : bool :=
  match h !! p with Some el => list_ el | None => false end.
Definition valueAt (h : list Element) (p : ptr) : option V := el ← h !! p; Value el.

Definition linked (h : list Element) (a b : ptr) : Prop :=
  nextOf h a = Some b /\ prevOf h b = Some a.

Fixpoint links (h : list Element) (cyc : list ptr) : Prop :=
  match cyc with
  | a :: t =>
      match t with
      | b :: _ => linked h a b /\ links h t
      | [] => True
      end
  | [] => True
  end.

Record represents (l : List) (ids : list ptr) : Prop := mkRepresents {
  rep_links : links (heap l) (root :: ids ++ [root]);
  rep_nodup : NoDup (root :: ids);
  rep_member : forall p, In p ids <-> inList (heap l) p = true;
  rep_values : forall p, In p ids -> exists v, valueAt (heap l) p = Some v;
  rep_len : len l = Z.of_nat (length ids)
}.

End Elements.

Arguments mkElement {V}.
Arguments next {V}.
Arguments prev {V}.
Arguments list_ {V}.
Arguments Value {V}.
Arguments mkList {V}.
Arguments heap {V}.
Arguments len {V}.
Arguments New {V}.
Arguments Front {V}.
Arguments Next {V}.
Arguments insert {V}.
Arguments PushBack {V}.
Arguments remove {V}.
Arguments Remove {V}.
Arguments valueOf {V}.
Arguments walk {V}.
Arguments toList {V}.
Arguments nextOf {V}.
Arguments prevOf {V}.
Arguments inList {V}.
Arguments valueAt {V}.
Arguments linked {V}.
Arguments links {V}.
Arguments represents {V}.
Arguments setNext {V}.
Arguments setPrev {V}.
Arguments setList {V}.

End GoList.

(** ** Assignment pipeline *)

Module Pipeline.

Import GoList.

(** What the worker gets from outside. [received i] is what the [select]
    of the [i]-th iteration of the outer loop takes from [assignmentCh]
    ([None]: the default branch, one second of sleep). The lookups of the
    docker client and the kernel's answers to the engine are indexed by the
    visit: the [k]-th execution of the body of the scan. *)
Record Env := mkEnv {
  received : nat -> option Assignment;
  containerByMount : nat -> string -> string + string;
  pidByContainer : nat -> string -> Z + string;
  kernel : nat -> Engine.Env
}.

Inductive Event :=
| Handling (a : ptr) (deviceID : string)
| TimedOut (a : ptr)
| Attach (a : ptr) (nicName : string) (pid : Z) (result : Engine.Outcome).

Record State := mkState {
  pending : List Assignment;
  clock : Clock;
  world : Engine.World;
  iterations : nat;
  visits : nat;
  log : list Event;
  panicked : bool
}.

Definition setPending (l : List Assignment) (st : State) : State :=
  mkState l (clock st) (world st) (iterations st) (visits st) (log st) (panicked st).

Definition note (e : Event) (st : State) : State :=
  mkState (pending st) (clock st) (world st) (iterations st) (visits st)
          (log st ++ [e])%list (panicked st).

Definition panic (st : State) : State :=
  mkState (pending st) (clock st) (world st) (iterations st) (visits st) (log st) true.

(** [pendingAssignments.Remove(a)]. *)
Definition removePending (a : ptr) (st : State) : State :=
  match Remove a (pending st) with
  | Some l => setPending l st
  | None => panic st
  end.

(** The body of the scan loop on the element [a]. *)
Definition handle (env : Env) (bridge : string) (a : ptr) (st : State) : State :=
  let k := visits st in
  let st := mkState (pending st) (clock st) (world st) (iterations st) (S k)
                    (log st) (panicked st) in
  match valueOf (pending st) a with
  | None => panic st
  | Some assignment =>
      let st := note (Handling a (DeviceID assignment)) st in
      let '(now, clk) := Now (clock st) in
      let st := mkState (pending st) clk (world st) (iterations st) (visits st)
                        (log st) (panicked st) in
      if (now >? Created assignment + assignmentTimeout)%Z then
        removePending a (note (TimedOut a) st)
      else
        match containerByMount env k (ContainerPath assignment) with
        | inr _ => st
        | inl containerID =>
            match pidByContainer env k containerID with
            | inr _ => st
            | inl containerPid =>
                let '(result, w) :=
                  Engine.attachPodToBridge (kernel env k) bridge
                    (DeviceID assignment) containerPid (world st) in
                let st := mkState (pending st) (clock st) w (iterations st)
                                  (visits st) (log st) (panicked st) in
                let st := note (Attach a (DeviceID assignment) containerPid result) st in
                match result with
                | Engine.Panicked _ => panic st
                | Engine.Returned _ => removePending a st
                end
            end
        end
  end.

(** The loop [for a := pendingAssignments.Front(); a != nil; a = a.Next()].
    [None]: the fuel ran out before the cursor became nil. *)
Fixpoint scan (env : Env) (bridge : string) (fuel : nat) (a : option ptr) (st : State)
  : option State :=
  match a with
  | None => Some st
  | Some p =>
      match fuel with
      | O => None
      | S f =>
          let st := handle env bridge p st in
          if panicked st then Some st
          else scan env bridge f (Next (pending st) p) st
      end
  end.

(** The [select] at the head of an iteration of the outer loop. *)
Definition receive (env : Env) (st : State) : State :=
  match received env (iterations st) with
  | Some assignment =>
      match PushBack assignment (pending st) with
      | Some (_, l) => setPending l st
      | None => panic st
      end
  | None => st
  end.

(** One iteration of the outer loop: the [select], then one scan. The scan
    executes its body at most once per element of the list. *)
Definition iteration (env : Env) (bridge : string) (st : State) : option State :=
  let st := receive env st in
  let st := mkState (pending st) (clock st) (world st) (S (iterations st))
                    (visits st) (log st) (panicked st) in
  if panicked st then Some st
  else scan env bridge (Z.to_nat (len (pending st))) (Front (pending st)) st.

(** The first [n] iterations of the outer loop; a panic ends the worker. *)
Fixpoint run (env : Env) (bridge : string) (n : nat) (st : State) : option State :=
  match n with
  | O => Some st
  | S m =>
      match iteration env bridge st with
      | Some st' => if panicked st' then Some st' else run env bridge m st'
      | None => None
      end
  end.

(** The state attachPods starts from, once the docker client is there. *)
Definition start (clk : Clock) (w : Engine.World) : State :=
  mkState New clk w 0 0 [] false.

(** The elements handed to the engine, in the order of the calls. *)
Definition attached (evs : list Event) : list ptr :=
  omap (fun e => match e with Attach a _ _ _ => Some a | _ => None end) evs.

(** The elements the scan body was run on, in order. *)
Definition handled (evs : list Event) : list ptr :=
  omap (fun e => match e with Handling a _ => Some a | _ => None end) evs.

(** The elements dropped for having timed out. *)
Definition timedOut (evs : list Event) : list ptr :=
  omap (fun e => match e with TimedOut a => Some a | _ => None end) evs.

(** *** What a visit does, read off the state it starts from *)

(** The element has timed out at the reading of the clock of this visit. *)
Definition expiredAt (a : ptr) (st : State) : bool :=
  match valueOf (pending st) a with
  | Some assignment =>
      (fst (Now (clock st)) >? Created assignment + assignmentTimeout)%Z
  | None => false
  end.

(** The element is resolved at this visit: it has not timed out, and the
    lookups of the container and of its pid both answer. *)
Definition resolvedAt (env : Env) (a : ptr) (st : State) : bool :=
  match valueOf (pending st) a with
  | Some assignment =>
      negb (expiredAt a st)
      && match containerByMount env (visits st) (ContainerPath assignment) with
         | inl containerID =>
             match pidByContainer env (visits st) containerID with
             | inl _ => true
             | inr _ => false
             end
         | inr _ => false
         end
  | None => false
  end.

(** The visit takes the element off the list: it has timed out, or it is
    resolved and the engine returns. *)
Definition removes (env : Env) (bridge : string) (a : ptr) (st : State) : bool :=
  expiredAt a st
  || (resolvedAt env a st && negb (panicked (handle env bridge a st))).

(** What holds of the worker's state between two visits: the list has the
    shape of [ids]; no element was handed to the engine twice; the elements
    handed to the engine are allocated and, unless the worker has panicked,
    off the list. *)
Definition invariant (st : State) (ids : list ptr) : Prop :=
  represents (pending st) ids
  /\ NoDup (attached (log st))
  /\ (forall a, In a (attached (log st)) -> a < length (heap (pending st)))
  /\ (panicked st = false -> forall a, In a (attached (log st)) -> ~ In a ids).

End Pipeline.

(** ** Concrete runs *)

Module Scenarios.

Definition noDraws : Rand := mkRand (fun _ => 0) 0.

(** A kernel with an empty link table, the thread in namespace [1]. *)
Definition hostWorld : Engine.World := Engine.mkWorld [] 1 noDraws [].

Definition br0Link : Engine.Link := Engine.mkLink 3 1500 0.

(** Every call succeeds. *)
Definition kernelOk : Engine.Env := Engine.mkEnv (fun _ => None) br0Link 7.


(** Setting the MTU of the peer fails (step 11); everything else succeeds. *)
Definition kernelMtuFails : Engine.Env :=
  Engine.mkEnv
    (fun s => match s with
              | Engine.AtPeerSetMTU => Some "invalid argument"
              | _ => None
              end)
    br0Link 7.

(** A call of Allocate with two requests, the random source answering
    the same draw every time; the encoder accepts every descriptor. *)
Definition twoRequests : list Allocator.ContainerAllocateRequest :=
  [Allocator.mkRequest ["br0-00"]; Allocator.mkRequest ["br0-01"]].

Definition allocatorStart : Allocator.State :=
  Allocator.mkState noDraws (mkClock (fun _ => 0%Z) 0) [].

Definition twoResponses : Allocator.AllocateResponse :=
  fst (fst (Allocator.Allocate "bridge.network.kubevirt.io" (fun _ => None) "br0"
              twoRequests allocatorStart)).

(** A call with the one request of the walk-through of the design: device
    [br0-07] of bridge [br0]. *)
Definition oneResponse : Allocator.AllocateResponse :=
  fst (fst (Allocator.Allocate "bridge.network.kubevirt.io" (fun _ => None) "br0"
              [Allocator.mkRequest ["br0-07"]] allocatorStart)).

(** Two assignments, created at instant [0], arriving at the first two
    iterations of the worker. *)
Definition firstAssignment : Assignment :=
  mkAssignment "br0-00" (getAssignmentPath "br0" "br0-00") 0.
Definition secondAssignment : Assignment :=
  mkAssignment "br0-01" (getAssignmentPath "br0" "br0-01") 0.

Definition arrivals (i : nat) : option Assignment :=
  match i with
  | 0 => Some firstAssignment
  | 1 => Some secondAssignment
  | _ => None
  end.

(** No container ever mounts the paths. The clock reads [5] at its first
    three readings, and is past the deadline of both assignments from the
    fourth reading on. *)
Definition neverResolvable : Pipeline.Env :=
  Pipeline.mkEnv arrivals
    (fun _ _ => inr "no container mounts the path")
    (fun _ _ => inr "no such container")
    (fun _ => kernelOk).

Definition lateClock : Clock :=
  mkClock (fun k => if (k <? 3)%nat then 5%Z else (assignmentTimeout + Z.of_nat k)%Z) 0.

(** The worker after [n] iterations of its loop. *)
Definition expiring (n : nat) : Pipeline.State :=
  default (Pipeline.start lateClock hostWorld)
    (Pipeline.run neverResolvable "br0" n (Pipeline.start lateClock hostWorld)).

(** The containers are found from the fourth visit on; the clock stays
    early and the kernel accepts every call. *)
Definition resolvableLater : Pipeline.Env :=
  Pipeline.mkEnv arrivals
    (fun k _ => if (k <? 3)%nat then inr "no container mounts the path" else inl "c0ffee")
    (fun k _ => if (k <? 3)%nat then inr "no such container" else inl 4242%Z)
    (fun _ => kernelOk).

Definition earlyClock : Clock := mkClock (fun _ => 5%Z) 0.

Definition attaching (n : nat) : Pipeline.State :=
  default (Pipeline.start earlyClock hostWorld)
    (Pipeline.run resolvableLater "br0" n (Pipeline.start earlyClock hostWorld)).

End Scenarios.

(** ** Reading a run of the engine *)

Module EngineRuns.

Import Engine.

(** The calls whose failure makes attachPodToBridge return, in the order
    in which the function makes them. *)
Definition steps : list Site :=
  [AtBridgeLookup; AtLinkAdd; AtHostUp; AtPeerLookup; AtSetNsPid;
   AtNsGet; AtNsFromPid; AtNsSet; AtPeerLookupInNs; AtPeerSetMTU; AtPeerUp].

(** The error of the first of the sites [ss] at which the environment
    answers one. *)
Fixpoint firstFaultOf (env : Env) (ss : list Site) : option string :=
  match ss with
  | [] => None
  | s :: rest =>
      match fault env s with
      | Some err => Some err
      | None => firstFaultOf env rest
      end
  end.

Definition firstFault (env : Env) : option string := firstFaultOf env steps.

(** The calls made between two states of the kernel, oldest first. *)
Definition made (w w' : World) : list (Call * bool) :=
  drop (length (calls w)) (calls w').

Definition isDelete (c : Call * bool) : bool :=
  match fst c with LinkDel _ => true | _ => false end.

(** A [netns.Set] that took effect. *)
Definition isSwitch (c : Call * bool) : bool :=
  match c with (NsSet _, true) => true | _ => false end.

Definition count (f : Call * bool -> bool) (cs : list (Call * bool)) : nat :=
  length (List.filter f cs).

(** The calls of a run in which nothing fails. *)
Definition successCalls (env : Env) (bridgeName nicName : string)
    (containerPid : Z) (w : World) : list (Call * bool) :=
  let link := hostLink env nicName w in
  [(LinkByName bridgeName, true);
   (LinkAdd link, true);
   (LinkSetUp (LinkName link), true);
   (LinkByName nicName, true);
   (LinkSetNsPid nicName containerPid, true);
   (NsGet, true);
   (NsGetFromPid containerPid, true);
   (NsSet (podNs env), true);
   (LinkByName nicName, true);
   (LinkSetMTU nicName (MTU (bridgeLink env)), true);
   (LinkSetUp nicName, true);
   (NsSet (threadNs w), true)].

End EngineRuns.

(** ** Names and paths *)

Module Naming.

(** A lower-case letter or a digit: the bytes of [letterBytes]. *)
Definition lowerAlnum (c : ascii) : bool :=
  let n := nat_of_ascii c in
  ((97 <=? n)%nat && (n <=? 122)%nat) || ((48 <=? n)%nat && (n <=? 57)%nat).

(** The string has no slash in it. *)
Definition noSlash (s : string) : bool :=
  forallb (fun c => negb (Ascii.eqb c "/"%char)) (list_ascii_of_string s).

End Naming.

(** ** Bridge prober *)

Module Prober.

(** What [netlink.LinkByName] answers: an error, a link that is a
    [*netlink.Bridge], or a link of another type (named by its type). *)
Inductive Lookup :=
| LookupError (err : string)
| FoundBridge
| FoundOther (linkType : string).

Definition bridgeExists (answer : Lookup) : bool :=
  match answer with
  | LookupError _ => false
  | FoundBridge => true
  | FoundOther _ => false
  end.

(** ListAndWatch on the answers of the kernel to its probes: the one made
    before the loop and those of the first ticks. *)
Definition watch (bridge : string) (first : Lookup) (probes : list Lookup)
  : list Advertiser.ListAndWatchResponse :=
  Advertiser.ListAndWatch bridge (bridgeExists first) (map bridgeExists probes).

End Prober.

(** ** The JSON text of a descriptor, written out *)

Module Literal.

Import Allocator.



(** The text of the descriptor of a request without device IDs. *)
Definition nullValue (namespace bridge : string) : string :=
  "{" ++ quoted "name" ++ ":" ++ Json.encodeString (namespace ++ "/" ++ bridge) ++ ","
      ++ quoted "interfaces" ++ ":null}".

(** An encoder that accepts every descriptor, as [json.Marshal] does on
    structs of strings. *)
Definition marshalsAll : networkInterfaceResources -> option string := fun _ => None.

End Literal.

(** ** Start-up *)

Module Startup.

(** What [os.Stat] answers on the path of the fake device: no error, an
    error for which [os.IsNotExist] holds, or another error. *)
Inductive StatAnswer :=
| StatFound
| StatNotExist (err : string)
| StatFailed (err : string).

(** The environment of a start: the answer of [os.Stat] and the error, if
    any, of running [mknod]. *)
Record Env := mkEnv {
  statAnswer : StatAnswer;
  mknodError : option string
}.

Inductive Event :=
| RanCommand (name : string) (args : list string)
| LaunchedWorker.

Inductive Outcome :=
| Returned (err : option string)
| Exited
| Panicked (err : string).

Definition createFakeDevice (env : Env) : Outcome * list Event :=
  match statAnswer env with
  | StatFound => (Returned None, [])
  | StatNotExist _ =>
      (Returned (mknodError env),
       [RanCommand "mknod" [fakeDevicePath; "b"; "1"; "1"]])
  | StatFailed statErr => (Panicked statErr, [])
  end.

(** Start: [glog.Exitf] ends the process; [go nbdp.attachPods()] launches
    the worker. *)
Definition Start (env : Env) : Outcome * list Event :=
  match createFakeDevice env with
  | (Returned (Some _), evs) => (Exited, evs)
  | (Returned None, evs) => (Returned None, (evs ++ [LaunchedWorker])%list)
  | (out, evs) => (out, evs)
  end.

Definition isLaunch (e : Event) : bool :=
  match e with LaunchedWorker => true | RanCommand _ _ => false end.

Definition isCommand (e : Event) : bool :=
  match e with RanCommand _ _ => true | LaunchedWorker => false end.

End Startup.

(** ** Passes of the worker *)

Module Passes.

Import GoList Pipeline.

(** The element made for what the [select] of the coming iteration
    receives, if it receives something: [PushBack] makes it at the next
    free address. *)
Definition arrival (env : Env) (st : State) : list ptr :=
  match received env (iterations st) with
  | Some _ => [length (heap (pending st))]
  | None => []
  end.

(** The assignments received in the first [n] iterations, in order. *)
Definition arrived (env : Env) (n : nat) : list Assignment :=
  omap (received env) (seq 0 n).

(** The assignments on the list, from front to back. *)
Definition waiting (st : State) : list Assignment :=
  omap (valueOf (pending st)) (toList (pending st)).

End Passes.

(** * Properties *)

(** ** Device advertiser *)

Module AdvertiserFacts.

Import Advertiser.

Lemma fmt_02d_twoDigits (i : nat) : i < 100 -> fmt_02d i = twoDigits i.
Proof.
  intros Hi.
  assert (H : Forall (fun k => fmt_02d k = twoDigits k) (seq 0 100)).
  { apply Forall_forall. intros k Hk.
    assert (Hall : forallb (fun k => String.eqb (fmt_02d k) (twoDigits k)) (seq 0 100) = true)
      by (vm_compute; reflexivity).
    rewrite forallb_forall in Hall. apply String.eqb_eq, Hall, list_elem_of_In, Hk. }
  rewrite Forall_forall in H. apply H, list_elem_of_In, in_seq. lia.
Qed.

Lemma generateLoop_map (bridge : string) (n i : nat) (acc : list Device) :
  generateLoop bridge i n acc
  = (acc ++ map (fun k => mkDevice (bridge ++ "-" ++ fmt_02d k) Healthy) (seq i n))%list.
Proof.
  revert i acc. induction n as [|n IH]; intros i acc; simpl.
  - now rewrite app_nil_r.
  - rewrite IH, <- app_assoc. reflexivity.
Qed.

Lemma generateBridgeDevices_pool (bridge : string) :
  generateBridgeDevices bridge
  = map (fun i => mkDevice (bridge ++ "-" ++ twoDigits i) Healthy) (seq 0 100).
Proof.
  unfold generateBridgeDevices, nicsPoolSize. rewrite generateLoop_map, app_nil_l.
  apply map_ext_in. intros k Hk. apply in_seq in Hk.
  rewrite fmt_02d_twoDigits by lia. reflexivity.
Qed.

Lemma watchTick_state (bridge : string) (did does : bool) :
  snd (watchTick bridge did does) = does.
Proof. unfold watchTick. destruct did, does; reflexivity. Qed.

Lemma watchLoop_ticks (bridge : string) (polls : list bool) (first : bool) :
  watchLoop bridge first polls
  = map (tickMessages bridge first polls) (seq 0 (length polls)).
Proof.
  revert first. induction polls as [|b rest IH]; intros first; [reflexivity|].
  cbn [watchLoop length seq map].
  pose proof (watchTick_state bridge first b) as Hst.
  destruct (watchTick bridge first b) as [sent did'] eqn:Htick. simpl in Hst. subst did'.
  f_equal.
  - unfold watchTick in Htick. unfold tickMessages, transitionAt. simpl.
    destruct (negb (Bool.eqb first b)); congruence.
  - rewrite IH, <- seq_shift, map_map. apply map_ext_in.
    intros j Hj. apply in_seq in Hj.
    unfold tickMessages, transitionAt. simpl nth.
    replace (observedBefore first (b :: rest) (S j)) with (observedBefore b rest j).
    + rewrite (nth_indep rest b first) by lia. reflexivity.
    + destruct j as [|j']; simpl; [reflexivity|]. apply nth_indep. lia.
Qed.

Lemma watchLoop_count (bridge : string) (polls : list bool) (first : bool) :
  length (concat (watchLoop bridge first polls)) = countTransitions first polls.
Proof.
  revert first. induction polls as [|b rest IH]; intros first; [reflexivity|].
  cbn [watchLoop countTransitions].
  pose proof (watchTick_state bridge first b) as Hst.
  destruct (watchTick bridge first b) as [sent did'] eqn:Htick. simpl in Hst. subst did'.
  cbn [concat]. rewrite length_app, IH. f_equal.
  unfold watchTick in Htick. destruct (Bool.eqb first b); simpl in Htick;
    inversion Htick; reflexivity.
Qed.

(** C6. Over any sequence of bridge-existence observations, the stream of
    ListAndWatch starts with the message for the existence found at stream
    start; after it, each tick contributes exactly one message (that of the
    new state) when the observation differs from the one before, and none
    otherwise, so that the stream holds one message per transition; the
    message of the present state carries the pool of 100 devices, IDs
    bridge-00 to bridge-99 in order, all healthy, and the message of the
    absent state carries no device. *)
Theorem C6_ListAndWatch_one_message_per_transition
    (bridge : string) (first : bool) (polls : list bool) :
  ListAndWatch bridge first polls
  = emitResponse bridge first
      :: concat (map (tickMessages bridge first polls) (seq 0 (length polls)))
  /\ length (ListAndWatch bridge first polls) = 1 + countTransitions first polls
  /\ Devices (emitResponse bridge true)
     = map (fun i => mkDevice (bridge ++ "-" ++ twoDigits i) Healthy) (seq 0 100)
  /\ Devices (emitResponse bridge false) = [].
Proof.
  split; [|split; [|split]].
  - unfold ListAndWatch. now rewrite watchLoop_ticks.
  - unfold ListAndWatch. cbn [length]. now rewrite watchLoop_count.
  - apply generateBridgeDevices_pool.
  - reflexivity.
Qed.

End AdvertiserFacts.

(** ** Attachment engine *)

Module EngineFacts.

Import Engine.

Ltac sites_ok H :=
  unfold switched, created in H; cbn [forallb] in H;
  repeat match type of H with
  | context [fault ?e ?s] => destruct (fault e s) eqn:?; cbn in H; try discriminate H
  end.

Lemma surjective_call (env : Env) (s : Site) (c : Call) (w : World) :
  call env s c w
  = match fault env s with
    | Some err => (Some err, record c false w)
    | None => (None, effect c (record c true w))
    end.
Proof. reflexivity. Qed.

(** One call of the run: its outcome is read from the hypotheses when it
    is known there, and split into success and failure otherwise. *)
Ltac step :=
  match goal with
  | Hf : fault ?e ?s = _ |- context [call ?e ?s ?c ?w] =>
      rewrite (surjective_call e s c w), Hf; cbv beta iota zeta; cbn [fst snd]
  | |- context [call ?e ?s ?c ?w] =>
      rewrite (surjective_call e s c w); destruct (fault e s) eqn:?;
      cbv beta iota zeta; cbn [fst snd]
  end.



(** C3. Once the thread has been switched into the namespace of the
    container (every call up to and including netns.Set(ns) succeeded), the
    last call of attachPodToBridge on every path, success or fault, is
    netns.Set on the namespace the thread started in; when that call
    succeeds the function returns with the thread back in that namespace,
    and when it fails the function panics instead of returning. *)
Theorem C3_namespace_restored_or_panic
    (env : Env) (bridgeName nicName : string) (containerPid : Z) (w : World) :
  switched env = true ->
  let (out, w') := attachPodToBridge env bridgeName nicName containerPid w in
  match fault env AtRestore with
  | None =>
      last (calls w') = Some (NsSet (threadNs w), true)
      /\ (exists result, out = Returned result)
      /\ threadNs w' = threadNs w
  | Some setErr =>
      last (calls w') = Some (NsSet (threadNs w), false)
      /\ out = Panicked setErr
  end.
Proof.
  intros H. sites_ok H.
  unfold attachPodToBridge.
  destruct (randInterfaceName (rng w)) as [linkName r].
  unfold afterSwitch, rollback, deferredRestore.
  repeat step; cbn; rewrite ?last_snoc; eauto.
Qed.




(** The same run: the thread is back in the namespace it started in. *)
Lemma C3_witness_mtu_step_fails :
  switched Scenarios.kernelMtuFails = true
  /\ threadNs (snd (attachPodToBridge Scenarios.kernelMtuFails "br0" "br0-07" 4242
                      Scenarios.hostWorld))
     = threadNs Scenarios.hostWorld.
Proof.
  split; [reflexivity|].
  exact (proj2 (proj2
    (C3_namespace_restored_or_panic Scenarios.kernelMtuFails "br0" "br0-07" 4242
       Scenarios.hostWorld eq_refl))).
Defined.

End EngineFacts.

(** ** Allocator *)

Module AllocatorFacts.

Import Allocator.

Lemma omap_id_Some {A : Type} (y : A) (l : list (option A)) :
  omap id (Some y :: l) = y :: omap id l.
Proof. reflexivity. Qed.

Lemma omap_id_None {A : Type} (l : list (option A)) :
  omap id (None :: l) = omap id l.
Proof. reflexivity. Qed.





Lemma encodeVnic_document (d : string) :
  encodeVnic (mkVnic d protocolEthernet) = documentInterface d.
Proof. reflexivity. Qed.


Lemma randStringLoop_chars (n : nat) (r : Rand) :
  fst (randStringLoop n r)
  = string_of_list_ascii
      (map (fun j => byteAt letterBytes (draws r (drawn r + j) mod String.length letterBytes))
           (seq 0 n)).
Proof.
  revert r. induction n as [|n IH]; intros r; [reflexivity|].
  cbn [randStringLoop]. unfold Intn.
  specialize (IH (mkRand (draws r) (S (drawn r)))).
  destruct (randStringLoop n _) as [rest r2]. cbn [fst] in *. subst rest.
  cbn [seq map string_of_list_ascii draws drawn]. rewrite Nat.add_0_r. f_equal.
  rewrite <- seq_shift, map_map. f_equal. apply map_ext. intros j. do 3 f_equal. lia.
Qed.

Lemma ToUpper_of_list (l : list ascii) :
  ToUpper (string_of_list_ascii l) = string_of_list_ascii (map toUpperByte l).
Proof. induction l as [|c l IH]; [reflexivity|]. cbn. now rewrite IH. Qed.

Lemma length_of_list (l : list ascii) : String.length (string_of_list_ascii l) = length l.
Proof. induction l as [|c l IH]; [reflexivity|]. cbn. now rewrite IH. Qed.

Lemma requestName_draws (r : Rand) (i : nat) :
  requestName r i
  = (envVarNamePrefix ++ string_of_list_ascii (map upperLetter (requestDraws r i)))%string.
Proof.
  unfold requestName, requestSuffix, randString, requestDraws.
  rewrite randStringLoop_chars, ToUpper_of_list, !map_map. cbn [draws drawn].
  reflexivity.
Qed.

Lemma requestDraws_bound (r : Rand) (i : nat) :
  Forall (fun k => k < 36) (requestDraws r i).
Proof.
  unfold requestDraws. apply Forall_forall. intros k Hk.
  apply list_elem_of_In, in_map_iff in Hk as (j & <- & _).
  apply Nat.mod_upper_bound. discriminate.
Qed.

Lemma upperLetter_alnum (k : nat) : k < 36 -> upperAlnum (upperLetter k) = true.
Proof.
  intros Hk.
  assert (Hall : forallb (fun k => upperAlnum (upperLetter k)) (seq 0 36) = true)
    by (vm_compute; reflexivity).
  rewrite forallb_forall in Hall. apply Hall, in_seq. lia.
Qed.

Lemma upperLetter_inj (j k : nat) :
  j < 36 -> k < 36 -> upperLetter j = upperLetter k -> j = k.
Proof.
  intros Hj Hk Heq.
  assert (Hall : forallb (fun j => forallb (fun k =>
            implb (Ascii.eqb (upperLetter j) (upperLetter k)) (Nat.eqb j k)) (seq 0 36))
            (seq 0 36) = true) by (vm_compute; reflexivity).
  rewrite forallb_forall in Hall. specialize (Hall j). rewrite forallb_forall in Hall.
  assert (Hjk := Hall ltac:(apply in_seq; lia) k ltac:(apply in_seq; lia)).
  rewrite Heq, Ascii.eqb_refl in Hjk. cbn in Hjk. now apply Nat.eqb_eq.
Qed.

Lemma map_upperLetter_inj (l1 l2 : list nat) :
  Forall (fun k => k < 36) l1 -> Forall (fun k => k < 36) l2 ->
  map upperLetter l1 = map upperLetter l2 -> l1 = l2.
Proof.
  intros H1. revert l2. induction H1 as [|x l1 Hx _ IH]; intros l2 H2 Heq.
  - destruct l2; [reflexivity|discriminate].
  - destruct H2 as [|y l2 Hy H2]; [discriminate|].
    cbn in Heq. injection Heq as Hxy Hrest.
    f_equal; [now apply upperLetter_inj | now apply IH].
Qed.

Lemma string_of_list_ascii_inj (l1 l2 : list ascii) :
  string_of_list_ascii l1 = string_of_list_ascii l2 -> l1 = l2.
Proof.
  intros H. rewrite <- (list_ascii_of_string_of_list_ascii l1),
    <- (list_ascii_of_string_of_list_ascii l2). now rewrite H.
Qed.

(** Two requests get the same name exactly when their draws coincide. *)
Lemma requestName_eq_iff (r : Rand) (i j : nat) :
  requestName r i = requestName r j <-> requestDraws r i = requestDraws r j.
Proof.
  rewrite !requestName_draws. split.
  - intros H. apply (inj (String.append envVarNamePrefix)) in H.
    apply string_of_list_ascii_inj in H.
    apply map_upperLetter_inj in H; auto using requestDraws_bound.
  - now intros ->.
Qed.

Lemma NoDup_map_equiv {A B C : Type} (f : A -> B) (g : A -> C) (l : list A) :
  (forall x y, f x = f y <-> g x = g y) ->
  NoDup (map f l) <-> NoDup (map g l).
Proof.
  intros Hfg. induction l as [|a l IH]; cbn [map].
  - split; intros _; constructor.
  - rewrite !NoDup_cons, IH.
    assert (Hin : f a ∈ map f l <-> g a ∈ map g l).
    { rewrite !list_elem_of_In, !in_map_iff. split; intros (x & Hx & Hl); exists x;
        (split; [|exact Hl]); apply Hfg; exact Hx. }
    now rewrite Hin.
Qed.

Section Facts.

Variable resourceNamespace : string.
Variable marshalError : networkInterfaceResources -> option string.
Variable bridge : string.


Lemma randStringLoop_rand (n : nat) (r : Rand) :
  snd (randStringLoop n r) = mkRand (draws r) (drawn r + n).
Proof.
  revert r. induction n as [|n IH]; intros r; cbn [randStringLoop].
  - destruct r; cbn. now rewrite Nat.add_0_r.
  - unfold Intn. specialize (IH (mkRand (draws r) (S (drawn r)))).
    destruct (randStringLoop n _) as [rest r2]. cbn in *. subst r2.
    f_equal. lia.
Qed.

Lemma assignmentsOf_cons (clk : Clock) (nic : string) (rest : list string) :
  assignmentsOf bridge clk (nic :: rest)
  = mkAssignment nic (getAssignmentPath bridge nic) (instants clk (reads clk))
      :: assignmentsOf bridge (mkClock (instants clk) (S (reads clk))) rest.
Proof.
  unfold assignmentsOf. cbn [imap]. rewrite Nat.add_0_r. f_equal.
  apply imap_ext. intros k x _. cbn. do 2 f_equal. lia.
Qed.

Lemma devicesLoop_spec (ids : list string) (devices : list DeviceSpec)
    (vnics : list vnic) (st : State) :
  devicesLoop bridge ids devices vnics st
  = ((devices ++ devicesOf bridge (mkRequest ids))%list,
     (vnics ++ map (fun nic => mkVnic nic protocolEthernet) ids)%list,
     mkState (rng st) (mkClock (instants (clock st)) (reads (clock st) + length ids))
             (events st ++ map Sent (assignmentsOf bridge (clock st) ids))%list).
Proof.
  revert devices vnics st. induction ids as [|nic rest IH]; intros devices vnics st.
  - cbn. rewrite !app_nil_r, Nat.add_0_r. destruct st as [r [i n] e]; reflexivity.
  - cbn [devicesLoop]. unfold Now, emit. cbn [rng clock events].
    rewrite IH. cbn [rng clock events instants reads].
    rewrite assignmentsOf_cons.
    unfold devicesOf. cbn [DevicesIDs map length].
    rewrite <- !app_assoc. cbn [app].
    replace (S (reads (clock st)) + length rest) with (reads (clock st) + S (length rest)) by lia.
    reflexivity.
Qed.

Lemma allocateOne_spec (req : ContainerAllocateRequest) (st : State) :
  allocateOne resourceNamespace marshalError bridge req st
  = (entryOf resourceNamespace marshalError bridge (rng st) 0 req,
     mkState (advance (rng st) envVarNameSuffixLen)
             (later (clock st) (length (DevicesIDs req)))
             (events st
                ++ map Sent (assignmentsOf bridge (clock st) (DevicesIDs req))
                ++ [Marshalled (descriptorOf resourceNamespace bridge req)
                               (marshals resourceNamespace marshalError bridge req)])%list).
Proof.
  unfold allocateOne. rewrite devicesLoop_spec. cbn [rng clock events app].
  pose proof (randStringLoop_rand envVarNameSuffixLen (rng st)) as Hr.
  unfold entryOf, marshals, requestName, requestSuffix, randString, jsonMarshal.
  rewrite Nat.mul_0_r, Nat.add_0_r.
  replace (mkRand (draws (rng st)) (drawn (rng st))) with (rng st) by (destruct (rng st); reflexivity).
  destruct (randStringLoop envVarNameSuffixLen (rng st)) as [suffix r]. cbn [fst snd] in *. subst r.
  fold (descriptorOf resourceNamespace bridge req).
  unfold devicesOf at 1. cbn [DevicesIDs].
  change (map (fun nic => mkVnic nic protocolEthernet) (DevicesIDs req))
    with (Interfaces (descriptorOf resourceNamespace bridge req)).
  destruct (marshalError _) eqn:E; unfold emit; cbn [rng clock events];
    rewrite <- app_assoc; reflexivity.
Qed.

Lemma requestName_advance (r : Rand) (i : nat) :
  requestName (advance r envVarNameSuffixLen) i = requestName r (S i).
Proof.
  unfold requestName, requestSuffix, advance. cbn [draws drawn].
  do 4 f_equal. f_equal. unfold envVarNameSuffixLen. lia.
Qed.

Lemma entryOf_advance (r : Rand) (i : nat) (req : ContainerAllocateRequest) :
  entryOf resourceNamespace marshalError bridge (advance r envVarNameSuffixLen) i req
  = entryOf resourceNamespace marshalError bridge r (S i) req.
Proof. unfold entryOf. now rewrite requestName_advance. Qed.

Lemma requestsLoop_spec (reqs : list ContainerAllocateRequest)
    (responses : list ContainerAllocateResponse) (st : State) :
  requestsLoop resourceNamespace marshalError bridge reqs responses st
  = ((responses
        ++ omap id (imap (entryOf resourceNamespace marshalError bridge (rng st)) reqs))%list,
     mkState (advance (rng st) (envVarNameSuffixLen * length reqs))
             (later (clock st) (length (flat_map DevicesIDs reqs)))
             (events st
                ++ eventsOf resourceNamespace marshalError bridge (clock st) reqs)%list).
Proof.
  revert responses st. induction reqs as [|req rest IH]; intros responses st.
  - cbn. unfold advance, later. rewrite !app_nil_r, !Nat.add_0_r.
    destruct st as [[d n] [i k] e]; reflexivity.
  - cbn [requestsLoop]. rewrite allocateOne_spec, IH. cbn [rng clock events].
    rewrite (imap_cons _ req rest). cbn [omap flat_map eventsOf length].
    f_equal.
    + rewrite (imap_ext _ (entryOf resourceNamespace marshalError bridge (rng st) ∘ S) rest)
        by (intros; apply entryOf_advance).
      destruct (entryOf _ _ _ (rng st) 0 req); cbn; [rewrite <- app_assoc|]; reflexivity.
    + unfold advance, later. cbn [draws drawn instants reads].
      rewrite length_app, <- !app_assoc. f_equal; f_equal; lia.
Qed.

Lemma sent_app (a b : list Event) : sent (a ++ b) = (sent a ++ sent b)%list.
Proof. apply omap_app. Qed.

Lemma sent_Sent (l : list Assignment) : sent (map Sent l) = l.
Proof. induction l as [|a l IH]; [reflexivity|]. cbn. unfold sent in IH. now rewrite IH. Qed.

Lemma assignmentsOf_ids (ids : list string) (clk : Clock) :
  map DeviceID (assignmentsOf bridge clk ids) = ids.
Proof.
  revert clk. induction ids as [|nic rest IH]; intros clk; [reflexivity|].
  rewrite assignmentsOf_cons. cbn [map DeviceID]. now rewrite IH.
Qed.

Lemma assignmentsOf_paths (ids : list string) (clk : Clock) :
  map ContainerPath (assignmentsOf bridge clk ids) = map (getAssignmentPath bridge) ids.
Proof.
  revert clk. induction ids as [|nic rest IH]; intros clk; [reflexivity|].
  rewrite assignmentsOf_cons. cbn [map ContainerPath]. now rewrite IH.
Qed.

Lemma sent_eventsOf_ids (reqs : list ContainerAllocateRequest) (clk : Clock) :
  map DeviceID (sent (eventsOf resourceNamespace marshalError bridge clk reqs))
  = flat_map DevicesIDs reqs.
Proof.
  revert clk. induction reqs as [|req rest IH]; intros clk; [reflexivity|].
  cbn [eventsOf flat_map]. rewrite !sent_app, sent_Sent, !map_app, assignmentsOf_ids.
  cbn [sent omap map app]. now rewrite IH.
Qed.

Lemma sent_eventsOf_paths (reqs : list ContainerAllocateRequest) (clk : Clock) :
  map ContainerPath (sent (eventsOf resourceNamespace marshalError bridge clk reqs))
  = map (getAssignmentPath bridge) (flat_map DevicesIDs reqs).
Proof.
  revert clk. induction reqs as [|req rest IH]; intros clk; [reflexivity|].
  cbn [eventsOf flat_map]. rewrite !sent_app, sent_Sent, !map_app, assignmentsOf_paths.
  cbn [sent omap map app]. now rewrite IH.
Qed.

Lemma entries_devices (reqs : list ContainerAllocateRequest) (r : Rand) :
  map Devices (omap id (imap (entryOf resourceNamespace marshalError bridge r) reqs))
  = map (devicesOf bridge)
        (List.filter (marshals resourceNamespace marshalError bridge) reqs).
Proof.
  revert r. induction reqs as [|req rest IH]; intros r; [reflexivity|].
  rewrite imap_cons. cbn [omap List.filter].
  rewrite (imap_ext _ (entryOf resourceNamespace marshalError bridge
                         (advance r envVarNameSuffixLen)) rest)
    by (intros; symmetry; apply entryOf_advance).
  unfold entryOf at 1, marshals at 1.
  destruct (marshalError _); cbn; now rewrite IH.
Qed.

Lemma filter_split_length {A : Type} (f : A -> bool) (l : list A) :
  length (List.filter f l) + length (List.filter (fun x => negb (f x)) l) = length l.
Proof.
  induction l as [|x l IH]; [reflexivity|]. cbn. destruct (f x); cbn; lia.
Qed.

(** C7. An Allocate call returns no error; its response holds, in the
    order of the requests, one entry for each request whose descriptor the
    encoder accepts and none for the others; and it sends exactly one
    Assignment per requested device ID, M in all, in the order of the
    requests. *)
Theorem C7_Allocate_entries_and_assignments
    (reqs : list ContainerAllocateRequest) (st : State) :
  let '((resp, err), st') := Allocate resourceNamespace marshalError bridge reqs st in
  err = None
  /\ ContainerResponses resp
     = omap id (imap (entryOf resourceNamespace marshalError bridge (rng st)) reqs)
  /\ map Devices (ContainerResponses resp)
     = map (devicesOf bridge)
           (List.filter (marshals resourceNamespace marshalError bridge) reqs)
  /\ length (ContainerResponses resp)
       + length (List.filter
                   (fun req => negb (marshals resourceNamespace marshalError bridge req)) reqs)
     = length reqs
  /\ map DeviceID (sent (events st'))
     = (map DeviceID (sent (events st)) ++ flat_map DevicesIDs reqs)%list
  /\ length (sent (events st'))
     = length (sent (events st)) + length (flat_map DevicesIDs reqs).
Proof.
  unfold Allocate. rewrite requestsLoop_spec. cbn [app ContainerResponses events].
  split; [reflexivity|]. split; [reflexivity|].
  assert (Hdev := entries_devices reqs (rng st)).
  split; [exact Hdev|]. split.
  - rewrite <- (length_map Devices), Hdev, length_map. apply filter_split_length.
  - rewrite sent_app, map_app, sent_eventsOf_ids. split; [reflexivity|].
    rewrite length_app. f_equal.
    rewrite <- (length_map DeviceID), sent_eventsOf_ids. reflexivity.
Qed.

(** C10. In a call of Allocate the sends of a request come before the
    call of the encoder on the descriptor of that request, request after
    request; hence every requested device ID has its Assignment sent,
    whatever the encoder answers, while a request on which it fails has no
    entry in the response. *)
Theorem C10_assignments_sent_before_marshal
    (reqs : list ContainerAllocateRequest) (req : ContainerAllocateRequest) (st : State) :
  let '((resp, _), st') := Allocate resourceNamespace marshalError bridge reqs st in
  let '(entry, st1) := allocateOne resourceNamespace marshalError bridge req st in
  events st1
  = (events st
       ++ map Sent (assignmentsOf bridge (clock st) (DevicesIDs req))
       ++ [Marshalled (descriptorOf resourceNamespace bridge req)
                      (marshals resourceNamespace marshalError bridge req)])%list
  /\ match entry with Some _ => true | None => false end
     = marshals resourceNamespace marshalError bridge req
  /\ events st'
     = (events st ++ eventsOf resourceNamespace marshalError bridge (clock st) reqs)%list
  /\ map DeviceID (sent (eventsOf resourceNamespace marshalError bridge (clock st) reqs))
     = flat_map DevicesIDs reqs
  /\ length (ContainerResponses resp)
     = length (List.filter (marshals resourceNamespace marshalError bridge) reqs).
Proof.
  unfold Allocate. rewrite requestsLoop_spec, allocateOne_spec.
  cbn [app ContainerResponses events].
  split; [reflexivity|]. split.
  { unfold entryOf, marshals. destruct (marshalError _); reflexivity. }
  split; [reflexivity|]. split; [apply sent_eventsOf_ids|].
  rewrite <- (length_map Devices), entries_devices, length_map. reflexivity.
Qed.



Lemma envNames_entries (reqs : list ContainerAllocateRequest) (r : Rand) (k : nat) :
  flat_map (fun c => map fst (Envs c))
    (omap id (imap (fun i => entryOf resourceNamespace marshalError bridge r (k + i)) reqs))
  = map (requestName r)
      (omap id (imap (fun i req =>
                        if marshals resourceNamespace marshalError bridge req
                        then Some (k + i) else None) reqs)).
Proof.
  revert k. induction reqs as [|req rest IH]; intros k; [reflexivity|].
  rewrite !imap_cons. cbn [omap].
  rewrite (imap_ext _ (fun i => entryOf resourceNamespace marshalError bridge r (S k + i)) rest)
    by (intros; cbn; f_equal; lia).
  rewrite (imap_ext (_ ∘ S)
             (fun i req => if marshals resourceNamespace marshalError bridge req
                           then Some (S k + i) else None) rest)
    by (intros; cbn; destruct (marshals _ _ _ _); f_equal; lia).
  unfold entryOf at 1, marshals at 1.
  destruct (marshalError _); rewrite ?omap_id_Some, ?omap_id_None;
    cbn [flat_map Envs map fst app]; rewrite IH, ?Nat.add_0_r; reflexivity.
Qed.

(** C8, as the code has it. The names of the environment variables of a
    call are, request by request, the prefix NETWORK_INTERFACE_RESOURCES_
    followed by the eight upper-case letters and digits drawn for the
    request; nothing compares the names of a call with each other, and they
    are pairwise distinct exactly when the draws of its requests are. *)
Theorem C8_names_follow_the_draws
    (reqs : list ContainerAllocateRequest) (st : State) :
  let names :=
    envNames (fst (fst (Allocate resourceNamespace marshalError bridge reqs st))) in
  names = map (requestName (rng st)) (marshalling resourceNamespace marshalError bridge reqs)
  /\ Forall (fun name =>
               exists suffix,
                 name = (envVarNamePrefix ++ suffix)%string
                 /\ String.length suffix = envVarNameSuffixLen
                 /\ forallb upperAlnum (list_ascii_of_string suffix) = true)
            names
  /\ (NoDup names
      <-> NoDup (map (requestDraws (rng st))
                     (marshalling resourceNamespace marshalError bridge reqs))).
Proof.
  cbv zeta.
  assert (Hnames :
    envNames (fst (fst (Allocate resourceNamespace marshalError bridge reqs st)))
    = map (requestName (rng st)) (marshalling resourceNamespace marshalError bridge reqs)).
  { unfold Allocate. rewrite requestsLoop_spec. cbn [fst app ContainerResponses].
    unfold envNames. cbn [ContainerResponses].
    exact (envNames_entries reqs (rng st) 0). }
  rewrite Hnames. split; [reflexivity|]. split.
  - apply Forall_forall. intros name Hin.
    apply list_elem_of_In, in_map_iff in Hin as (i & <- & _).
    rewrite requestName_draws. eexists. split; [reflexivity|]. split.
    + rewrite length_of_list, length_map. unfold requestDraws.
      now rewrite length_map, length_seq.
    + rewrite list_ascii_of_string_of_list_ascii. apply forallb_forall.
      intros c Hc. apply in_map_iff in Hc as (k & <- & Hk).
      apply upperLetter_alnum.
      pose proof (requestDraws_bound (rng st) i) as Hb.
      rewrite Forall_forall in Hb. apply Hb, list_elem_of_In, Hk.
  - apply NoDup_map_equiv. intros x y. apply requestName_eq_iff.
Qed.

End Facts.

(** C8 fails as stated: when the random source repeats its draws, the two
    requests of one call get the same name. *)
Lemma C8_counterexample_equal_names :
  Allocator.envNames Scenarios.twoResponses
  = ["NETWORK_INTERFACE_RESOURCES_AAAAAAAA"; "NETWORK_INTERFACE_RESOURCES_AAAAAAAA"]
  /\ ~ NoDup (Allocator.envNames Scenarios.twoResponses).
Proof.
  assert (H : Allocator.envNames Scenarios.twoResponses
              = ["NETWORK_INTERFACE_RESOURCES_AAAAAAAA";
                 "NETWORK_INTERFACE_RESOURCES_AAAAAAAA"]) by (vm_compute; reflexivity).
  split; [exact H|]. rewrite H. intros Hnd. apply NoDup_cons in Hnd as [Hnotin _].
  apply Hnotin. left.
Qed.

(** The walk-through of the design: one request for [br0-07]. *)
Example Allocate_br0_07 :
  map Allocator.Devices (Allocator.ContainerResponses Scenarios.oneResponse)
  = [[Allocator.mkDeviceSpec "/tmp/device-plugin-network-bridge/br0/br0-07"
        "/var/run/device-plugin-network-bridge-fakedev" "r"]]
  /\ map (fun c => map snd (Allocator.Envs c))
         (Allocator.ContainerResponses Scenarios.oneResponse)
     = [["{" ++ Allocator.quoted "name" ++ ":"
             ++ Allocator.quoted "bridge.network.kubevirt.io/br0" ++ ","
             ++ Allocator.quoted "interfaces" ++ ":[{"
             ++ Allocator.quoted "name" ++ ":" ++ Allocator.quoted "br0-07" ++ ","
             ++ Allocator.quoted "protocol" ++ ":" ++ Allocator.quoted "Ethernet"
             ++ "}]}"]].
Proof. split; vm_compute; reflexivity. Qed.

End AllocatorFacts.

(** ** container/list *)

Module GoListFacts.

Import GoList.

#[local] Open Scope list_scope.

Section Facts.

Context {V : Type}.

Implicit Types (h : list (Element V)) (p q e : ptr).

(** Reading a field after an update of another field, or of another
    element. *)
Lemma bind_alter {B : Type} (g : Element V -> option B) (f : Element V -> Element V) h p q :
  (p = q -> forall x, g (f x) = g x) ->
  (el ← alter f p h !! q; g el) = (el ← h !! q; g el).
Proof.
  intros Hg. destruct (decide (p = q)) as [->|Hpq].
  - rewrite list_lookup_alter_eq. destruct (h !! q) as [x|]; simpl; [now apply Hg | reflexivity].
  - now rewrite list_lookup_alter_ne.
Qed.

Lemma nextOf_alter f h p q :
  (p = q -> forall x, next (f x) = next x) -> nextOf (alter f p h) q = nextOf h q.
Proof. apply bind_alter. Qed.

Lemma prevOf_alter f h p q :
  (p = q -> forall x, prev (f x) = prev x) -> prevOf (alter f p h) q = prevOf h q.
Proof. apply bind_alter. Qed.

Lemma valueAt_alter f h p q :
  (p = q -> forall x, Value (f x) = Value x) -> valueAt (alter f p h) q = valueAt h q.
Proof. apply bind_alter. Qed.

Lemma inList_alter f h p q :
  (p = q -> forall x, list_ (f x) = list_ x) -> inList (alter f p h) q = inList h q.
Proof.
  intros Hg. unfold inList. destruct (decide (p = q)) as [->|Hpq].
  - rewrite list_lookup_alter_eq. destruct (h !! q) as [x|]; simpl; [now apply Hg | reflexivity].
  - now rewrite list_lookup_alter_ne.
Qed.

Lemma nextOf_setNext v h p :
  is_Some (h !! p) -> nextOf (alter (setNext v) p h) p = v.
Proof. intros [x Hx]. unfold nextOf. now rewrite list_lookup_alter_eq, Hx. Qed.

Lemma prevOf_setPrev v h p :
  is_Some (h !! p) -> prevOf (alter (setPrev v) p h) p = v.
Proof. intros [x Hx]. unfold prevOf. now rewrite list_lookup_alter_eq, Hx. Qed.

Lemma inList_setList b h p :
  is_Some (h !! p) -> inList (alter (setList b) p h) p = b.
Proof. intros [x Hx]. unfold inList. now rewrite list_lookup_alter_eq, Hx. Qed.

Lemma is_Some_alter f h p q : is_Some (alter f p h !! q) <-> is_Some (h !! q).
Proof. rewrite !lookup_lt_is_Some, length_alter. reflexivity. Qed.

Lemma nextOf_is_Some h p q : nextOf h p = Some q -> is_Some (h !! p).
Proof. unfold nextOf. destruct (h !! p); [eauto|discriminate]. Qed.

Lemma prevOf_is_Some h p q : prevOf h p = Some q -> is_Some (h !! p).
Proof. unfold prevOf. destruct (h !! p); [eauto|discriminate]. Qed.

Lemma inList_is_Some h p : inList h p = true -> is_Some (h !! p).
Proof. unfold inList. destruct (h !! p); [eauto|discriminate]. Qed.

(** Consecutive links. *)
Lemma links_cons h a b t : links h (a :: b :: t) <-> linked h a b /\ links h (b :: t).
Proof. reflexivity. Qed.

Lemma links_app h l1 x l2 :
  links h (l1 ++ x :: l2) <-> links h (l1 ++ [x]) /\ links h (x :: l2).
Proof.
  induction l1 as [|a l1 IH].
  - cbn [app]. cbn [links]. tauto.
  - destruct l1 as [|b l1].
    + cbn [app] in *. rewrite links_cons. cbn [links]. tauto.
    + cbn [app] in *. rewrite !links_cons, IH. tauto.
Qed.

Lemma links_frame h h' cyc :
  (forall a, In a (removelast cyc) -> nextOf h' a = nextOf h a) ->
  (forall b, In b (tl cyc) -> prevOf h' b = prevOf h b) ->
  links h cyc -> links h' cyc.
Proof.
  induction cyc as [|a t IH]; [trivial|].
  destruct t as [|b t]; [trivial|].
  intros Hn Hp. rewrite !links_cons. intros [[Hab Hba] Ht]. split.
  - split.
    + rewrite Hn; [exact Hab|]. left. reflexivity.
    + rewrite Hp; [exact Hba|]. left. reflexivity.
  - apply IH; [| |exact Ht].
    + intros x Hx. apply Hn. right. exact Hx.
    + intros x Hx. apply Hp. cbn [tl] in *. right. exact Hx.
Qed.

(** What [remove] does to the fields, element by element. *)
Lemma remove_fields (l : List V) e P N :
  nextOf (heap l) e = Some N -> prevOf (heap l) e = Some P ->
  is_Some (heap l !! P) -> is_Some (heap l !! N) -> e <> P -> e <> N ->
  exists l',
    remove e l = Some l'
    /\ len l' = (len l - 1)%Z
    /\ length (heap l') = length (heap l)
    /\ (forall q, nextOf (heap l') q
                  = if decide (q = e) then None
                    else if decide (q = P) then Some N else nextOf (heap l) q)
    /\ (forall q, prevOf (heap l') q
                  = if decide (q = e) then None
                    else if decide (q = N) then Some P else prevOf (heap l) q)
    /\ (forall q, inList (heap l') q = if decide (q = e) then false else inList (heap l) q)
    /\ (forall q, valueAt (heap l') q = valueAt (heap l) q).
Proof.
  intros Hn Hp [xP HP] [xN HN] HeP HeN.
  destruct (heap l !! e) as [el|] eqn:He; [|unfold nextOf in Hn; now rewrite He in Hn].
  assert (Hnext : next el = Some N) by (unfold nextOf in Hn; now rewrite He in Hn).
  assert (Hprev : prev el = Some P) by (unfold prevOf in Hp; now rewrite He in Hp).
  set (h1 := alter (setNext (next el)) P (heap l)).
  assert (He1 : h1 !! e = Some el) by (unfold h1; rewrite list_lookup_alter_ne by congruence; exact He).
  assert (HN1 : is_Some (h1 !! N)) by (apply is_Some_alter; eauto).
  destruct HN1 as [xN1 HN1].
  eexists. split.
  { unfold remove. rewrite He. simpl. rewrite Hprev. simpl. rewrite HP. simpl.
    fold h1. rewrite He1. simpl. rewrite Hnext. simpl. rewrite HN1. simpl.
    reflexivity. }
  cbn [heap len]. split; [reflexivity|]. split; [unfold h1; now rewrite !length_alter|].
  assert (Se : forall h0 f, is_Some (h0 !! e) -> is_Some (alter f e h0 !! e))
    by (intros; now apply is_Some_alter).
  assert (He2 : is_Some (alter (setPrev (prev el)) N h1 !! e))
    by (apply is_Some_alter; eauto).
  split; [|split; [|split]]; intros q.
  - destruct (decide (q = e)) as [->|Hqe].
    + rewrite nextOf_alter by (intros _ x; reflexivity).
      rewrite nextOf_alter by (intros _ x; reflexivity).
      now rewrite nextOf_setNext.
    + rewrite !nextOf_alter by (intros; try congruence; reflexivity).
      unfold h1. destruct (decide (q = P)) as [->|HqP].
      * rewrite nextOf_setNext by eauto. exact Hnext.
      * now rewrite nextOf_alter by congruence.
  - destruct (decide (q = e)) as [->|Hqe].
    + rewrite prevOf_alter by (intros _ x; reflexivity).
      rewrite prevOf_setPrev; [reflexivity|]. now apply Se.
    + rewrite !(prevOf_alter _ _ e) by congruence.
      destruct (decide (q = N)) as [->|HqN].
      * rewrite prevOf_setPrev by eauto. exact Hprev.
      * rewrite prevOf_alter by congruence. unfold h1.
        now rewrite prevOf_alter by (intros _ x; reflexivity).
  - destruct (decide (q = e)) as [->|Hqe].
    + rewrite inList_setList; [reflexivity|]. now apply Se, Se.
    + rewrite !(inList_alter _ _ e) by congruence.
      rewrite inList_alter by (intros _ x; reflexivity). unfold h1.
      now rewrite inList_alter by (intros _ x; reflexivity).
  - unfold h1. now rewrite !valueAt_alter by (intros _ x; reflexivity).
Qed.

Lemma links_root_inv h (ids1 : list ptr) e (ids2 : list ptr) :
  links h (root :: (ids1 ++ e :: ids2) ++ [root]) ->
  exists A P N B,
    root :: ids1 = A ++ [P] /\ ids2 ++ [root] = N :: B
    /\ links h (A ++ [P]) /\ linked h P e /\ linked h e N /\ links h (N :: B).
Proof.
  intros H.
  replace (root :: (ids1 ++ e :: ids2) ++ [root])
    with ((root :: ids1) ++ e :: (ids2 ++ [root])) in H
    by (cbn [app]; now rewrite <- app_assoc).
  apply links_app in H as [H1 H2].
  destruct (exists_last (l := root :: ids1) ltac:(discriminate)) as (A & P & E).
  rewrite E in H1. rewrite <- app_assoc in H1. cbn [app] in H1.
  apply links_app in H1 as [HA HPe]. cbn [links] in HPe.
  destruct (ids2 ++ [root]) as [|N B] eqn:E2; [now destruct ids2|].
  apply links_cons in H2 as [HeN HNB].
  exists A, P, N, B. tauto.
Qed.

(** Membership in the lists at hand, as a propositional formula. *)
Ltac mem :=
  rewrite ?elem_of_app, ?elem_of_cons, ?list_elem_of_singleton, ?elem_of_nil in *.

Lemma split_last_facts (xs A : list ptr) (r P : ptr) :
  NoDup (r :: xs) -> r :: xs = A ++ [P] ->
  (P = r \/ P ∈ xs)
  /\ (forall a, a ∈ A -> (a = r \/ a ∈ xs) /\ a <> P)
  /\ (forall b, In b (tl (A ++ [P])) -> b ∈ xs).
Proof.
  intros Hnd E. split; [|split].
  - assert (H : P ∈ r :: xs) by (rewrite E; mem; auto). mem. exact H.
  - intros a Ha. split.
    + assert (H : a ∈ r :: xs) by (rewrite E; mem; auto). mem. exact H.
    + rewrite E in Hnd. apply NoDup_app in Hnd as (_ & Hd & _).
      intros ->. apply (Hd P Ha). mem. auto.
  - intros b Hb. rewrite <- E in Hb. cbn [tl] in Hb. now apply list_elem_of_In.
Qed.

Lemma split_head_facts (xs B : list ptr) (r N : ptr) :
  NoDup (r :: xs) -> xs ++ [r] = N :: B ->
  (N = r \/ N ∈ xs)
  /\ (forall b, b ∈ B -> (b = r \/ b ∈ xs) /\ b <> N)
  /\ (forall a, In a (removelast (N :: B)) -> a ∈ xs).
Proof.
  intros Hnd E. apply NoDup_cons in Hnd as [Hr Hnd]. split; [|split].
  - assert (H : N ∈ xs ++ [r]) by (rewrite E; mem; auto). mem. tauto.
  - intros b Hb. split.
    + assert (H : b ∈ xs ++ [r]) by (rewrite E; mem; auto). mem. tauto.
    + assert (Hnd' : NoDup (N :: B)).
      { rewrite <- E. apply NoDup_app. split; [exact Hnd|]. split; [|apply NoDup_singleton].
        intros x Hx Hx'. mem. destruct Hx' as [->|[]]. exact (Hr Hx). }
      apply NoDup_cons in Hnd' as [Hd _]. intros ->. exact (Hd Hb).
  - intros a Ha. rewrite <- E, removelast_last in Ha. now apply list_elem_of_In.
Qed.

Lemma NoDup_middle (r e : ptr) (ids1 ids2 : list ptr) :
  NoDup (r :: ids1 ++ e :: ids2) ->
  NoDup (r :: ids1) /\ NoDup (r :: ids2) /\ NoDup (r :: ids1 ++ ids2)
  /\ e <> r /\ (e ∉ ids1) /\ (e ∉ ids2) /\ (forall x, x ∈ ids1 -> x ∉ ids2).
Proof.
  intros H. apply NoDup_cons in H as [Hr H].
  apply NoDup_app in H as (H1 & Hd & H2). apply NoDup_cons in H2 as [He2 H2].
  assert (Hr1 : r ∉ ids1) by (intros Hx; apply Hr; mem; auto).
  assert (Hr2 : r ∉ ids2) by (intros Hx; apply Hr; mem; auto).
  assert (Hre : e <> r) by (intros ->; apply Hr; mem; auto).
  assert (He1 : e ∉ ids1) by (intros Hx; apply (Hd e Hx); mem; auto).
  assert (Hd' : forall x, x ∈ ids1 -> x ∉ ids2)
    by (intros x Hx Hx'; apply (Hd x Hx); mem; auto).
  repeat split; auto.
  - apply NoDup_cons. auto.
  - apply NoDup_cons. auto.
  - apply NoDup_cons. split.
    + intros Hx. mem. tauto.
    + apply NoDup_app. auto.
Qed.

Lemma Remove_represents (l : List V) (ids1 : list ptr) e (ids2 : list ptr) :
  represents l (ids1 ++ e :: ids2) ->
  exists l',
    Remove e l = Some l'
    /\ represents l' (ids1 ++ ids2)
    /\ (forall q, valueAt (heap l') q = valueAt (heap l) q)
    /\ length (heap l') = length (heap l)
    /\ inList (heap l') e = false.
Proof.
  intros [Hlinks Hnd Hmem Hval Hlen].
  destruct (links_root_inv _ _ _ _ Hlinks)
    as (A & P & N & B & EA & EB & HA & [HnP HpE] & [HnE HpN] & HNB).
  destruct (NoDup_middle _ _ _ _ Hnd) as (Hnd1 & Hnd2 & Hnd12 & Her & He1 & He2 & Hd).
  destruct (split_last_facts _ _ _ _ Hnd1 EA) as (HP & HinA & HtlA).
  destruct (split_head_facts _ _ _ _ Hnd2 EB) as (HN & HinB & HrlB).
  apply NoDup_cons in Hnd1 as [Hr1 _]. apply NoDup_cons in Hnd2 as [Hr2 _].
  assert (HeP : e <> P) by (intros <-; destruct HP; [congruence|contradiction]).
  assert (HeN : e <> N) by (intros <-; destruct HN; [congruence|contradiction]).
  assert (Hin : inList (heap l) e = true) by (apply Hmem, in_elt).
  destruct (remove_fields l e P N HnE HpE
              (nextOf_is_Some _ _ _ HnP) (prevOf_is_Some _ _ _ HpN) HeP HeN)
    as (l' & Hrem & Hlen' & Hheap & Fn & Fp & Fi & Fv).
  exists l'. split.
  { unfold Remove. unfold inList in Hin. destruct (heap l !! e) as [el|]; [|discriminate].
    simpl. now rewrite Hin. }
  split; [|split; [exact Fv | split; [exact Hheap|]]].
  2:{ rewrite Fi. now rewrite decide_True. }
  split.
  - replace (root :: (ids1 ++ ids2) ++ [root]) with (A ++ P :: N :: B).
    2:{ rewrite <- app_assoc, EB. change (A ++ P :: N :: B) with (A ++ [P] ++ N :: B).
        now rewrite app_assoc, <- EA. }
    apply links_app. split; [|apply links_cons; split].
    + apply (links_frame (heap l)); [| |exact HA].
      * intros a Ha. rewrite removelast_last in Ha.
        apply list_elem_of_In, HinA in Ha as [Ha1 Ha2]. rewrite Fn.
        rewrite decide_False by (intros ->; destruct Ha1; [congruence|contradiction]).
        now rewrite decide_False.
      * intros b Hb. apply HtlA in Hb. rewrite Fp.
        rewrite decide_False by (intros ->; contradiction).
        rewrite decide_False; [reflexivity|].
        intros ->. destruct HN as [->|HN]; [contradiction|]. exact (Hd _ Hb HN).
    + split.
      * rewrite Fn. rewrite decide_False by congruence. now rewrite decide_True.
      * rewrite Fp. rewrite decide_False by congruence. now rewrite decide_True.
    + apply (links_frame (heap l)); [| |exact HNB].
      * intros a Ha. apply HrlB in Ha. rewrite Fn.
        rewrite decide_False by (intros ->; contradiction).
        rewrite decide_False; [reflexivity|].
        intros ->. destruct HP as [->|HP]; [contradiction|]. exact (Hd _ HP Ha).
      * intros b Hb. cbn [tl] in Hb. apply list_elem_of_In, HinB in Hb as [Hb1 Hb2].
        rewrite Fp.
        rewrite decide_False by (intros ->; destruct Hb1; [congruence|contradiction]).
        now rewrite decide_False.
  - exact Hnd12.
  - intros p. rewrite Fi. destruct (decide (p = e)) as [->|Hpe].
    + split; [|discriminate]. intros Hx. apply in_app_or in Hx as [Hx|Hx];
        apply list_elem_of_In in Hx; contradiction.
    + rewrite <- Hmem, !in_app_iff. cbn [In]. intuition congruence.
  - intros p Hp. rewrite Fv. apply Hval. rewrite in_app_iff in *. cbn [In]. tauto.
  - rewrite Hlen', Hlen, !length_app. cbn [length]. lia.
Qed.

(** Reading a field of a heap grown by one element. *)
Lemma lookup_snoc h (x : Element V) q :
  (h ++ [x]) !! q = if decide (q = length h) then Some x else h !! q.
Proof.
  case_decide as Hq.
  - subst q. now rewrite list_lookup_middle.
  - destruct (decide (q < length h)) as [Hlt|Hge].
    + now rewrite lookup_app_l.
    + rewrite !lookup_ge_None_2; [reflexivity|lia|rewrite length_app; cbn; lia].
Qed.

Lemma insert_fields (l : List V) (v : V) P :
  prevOf (heap l) root = Some P -> nextOf (heap l) P = Some root ->
  let E := length (heap l) in
  exists l',
    PushBack v l = Some (E, l')
    /\ len l' = (len l + 1)%Z
    /\ length (heap l') = S E
    /\ (forall q, nextOf (heap l') q
                  = if decide (q = E) then Some root
                    else if decide (q = P) then Some E else nextOf (heap l) q)
    /\ (forall q, prevOf (heap l') q
                  = if decide (q = root) then Some E
                    else if decide (q = E) then Some P else prevOf (heap l) q)
    /\ (forall q, inList (heap l') q = if decide (q = E) then true else inList (heap l) q)
    /\ (forall q, valueAt (heap l') q
                  = if decide (q = E) then Some v else valueAt (heap l) q).
Proof.
  intros Hp Hn E.
  destruct (heap l !! root) as [rootEl|] eqn:Hroot; [|unfold prevOf in Hp; now rewrite Hroot in Hp].
  assert (Hprev : prev rootEl = Some P) by (unfold prevOf in Hp; now rewrite Hroot in Hp).
  destruct (heap l !! P) as [atEl|] eqn:HP; [|unfold nextOf in Hn; now rewrite HP in Hn].
  assert (Hnext : next atEl = Some root) by (unfold nextOf in Hn; now rewrite HP in Hn).
  assert (HrE : root <> E) by (apply lookup_lt_Some in Hroot; unfold E; lia).
  assert (HPE : P <> E) by (apply lookup_lt_Some in HP; unfold E; lia).
  set (new := mkElement None None false (Some v)).
  set (h1 := heap l ++ [new]).
  assert (H1P : h1 !! P = Some atEl)
    by (unfold h1; rewrite lookup_snoc, decide_False by exact HPE; exact HP).
  assert (H1E : h1 !! E = Some new)
    by (unfold h1; rewrite lookup_snoc, decide_True by reflexivity; reflexivity).
  assert (H1r : is_Some (h1 !! root))
    by (unfold h1; rewrite lookup_snoc, decide_False by exact HrE; eauto).
  set (h2 := alter (setNext (Some root)) E
               (alter (setPrev (Some P)) E (alter (setNext (Some E)) P h1))).
  assert (H2r : is_Some (h2 !! root)) by (unfold h2; now rewrite !is_Some_alter).
  destruct H2r as [xr H2r].
  eexists. split.
  { unfold PushBack. rewrite Hroot. simpl. rewrite Hprev. simpl.
    unfold insert. cbn [heap len]. fold new. fold h1. rewrite H1P. simpl.
    rewrite Hnext. simpl. fold E. fold h2. rewrite H2r. simpl. reflexivity. }
  cbn [heap len].
  assert (SE : forall h0 f q, is_Some (h0 !! q) -> is_Some (alter f E h0 !! q))
    by (intros; now apply is_Some_alter).
  assert (SP : is_Some (alter (setNext (Some E)) P h1 !! E))
    by (apply is_Some_alter; eauto).
  assert (Frame : forall q, q <> E ->
            nextOf h1 q = nextOf (heap l) q /\ prevOf h1 q = prevOf (heap l) q
            /\ inList h1 q = inList (heap l) q /\ valueAt h1 q = valueAt (heap l) q).
  { intros q Hq. unfold nextOf, prevOf, inList, valueAt, h1.
    now rewrite lookup_snoc, decide_False by exact Hq. }
  split; [reflexivity|]. split.
  { unfold h2, h1. rewrite !length_alter, length_app. cbn. unfold E. lia. }
  split; [|split; [|split]]; intros q.
  - rewrite nextOf_alter by (intros _ x; reflexivity).
    rewrite nextOf_alter by (intros _ x; reflexivity). unfold h2.
    destruct (decide (q = E)) as [->|HqE].
    + rewrite nextOf_setNext; [reflexivity|]. now apply SE.
    + rewrite !(nextOf_alter _ _ E) by congruence.
      destruct (decide (q = P)) as [->|HqP].
      * rewrite nextOf_setNext by eauto. reflexivity.
      * rewrite nextOf_alter by congruence. now apply Frame.
  - rewrite prevOf_alter by (intros _ x; reflexivity).
    destruct (decide (q = root)) as [->|Hqr].
    + rewrite prevOf_setPrev by eauto. reflexivity.
    + rewrite prevOf_alter by congruence. unfold h2.
      rewrite prevOf_alter by (intros _ x; reflexivity).
      destruct (decide (q = E)) as [->|HqE].
      * rewrite prevOf_setPrev by exact SP. reflexivity.
      * rewrite prevOf_alter by congruence.
        rewrite prevOf_alter by (intros _ x; reflexivity). now apply Frame.
  - destruct (decide (q = E)) as [->|HqE].
    + rewrite inList_setList; [reflexivity|]. apply is_Some_alter. unfold h2.
      apply SE, SE. exact SP.
    + rewrite inList_alter by congruence.
      rewrite inList_alter by (intros _ x; reflexivity). unfold h2.
      rewrite !inList_alter by (intros _ x; reflexivity). now apply Frame.
  - unfold h2. rewrite !valueAt_alter by (intros _ x; reflexivity).
    destruct (decide (q = E)) as [->|HqE].
    + unfold valueAt. now rewrite H1E.
    + now apply Frame.
Qed.

Lemma New_represents : represents (@New V) [].
Proof.
  split.
  - cbn. unfold linked, nextOf, prevOf. cbn. auto.
  - apply NoDup_singleton.
  - intros p. split; [contradiction|]. unfold inList. cbn.
    destruct p as [|p]; cbn; [discriminate|]. destruct p; discriminate.
  - contradiction.
  - reflexivity.
Qed.

Lemma represents_allocated (l : List V) (ids : list ptr) p :
  represents l ids -> p = root \/ In p ids -> p < length (heap l).
Proof.
  intros [Hlinks _ Hmem _ _] [->|Hp].
  - destruct (ids ++ [root]) as [|b t] eqn:E; [now destruct ids|].
    cbn [links] in Hlinks. destruct Hlinks as [[Hn _] _].
    apply nextOf_is_Some, lookup_lt_is_Some in Hn. exact Hn.
  - apply Hmem, inList_is_Some, lookup_lt_is_Some in Hp. exact Hp.
Qed.

Lemma links_last h (ids : list ptr) :
  links h (root :: ids ++ [root]) ->
  exists A P, root :: ids = A ++ [P] /\ links h (A ++ [P]) /\ linked h P root.
Proof.
  intros H.
  destruct (exists_last (l := root :: ids) ltac:(discriminate)) as (A & P & E).
  change (root :: ids ++ [root]) with ((root :: ids) ++ [root]) in H.
  rewrite E, <- app_assoc in H. cbn [app] in H.
  apply links_app in H as [HA HP]. cbn [links] in HP.
  exists A, P. tauto.
Qed.

Lemma PushBack_represents (l : List V) (ids : list ptr) (v : V) :
  represents l ids ->
  exists l',
    PushBack v l = Some (length (heap l), l')
    /\ represents l' (ids ++ [length (heap l)])
    /\ (forall q, valueAt (heap l') q
                  = if decide (q = length (heap l)) then Some v else valueAt (heap l) q)
    /\ length (heap l') = S (length (heap l)).
Proof.
  intros Hrep. pose proof Hrep as [Hlinks Hnd Hmem Hval Hlen].
  destruct (links_last _ _ Hlinks) as (A & P & EA & HA & [HnP HpR]).
  destruct (split_last_facts _ _ _ _ Hnd EA) as (HP & HinA & HtlA).
  destruct (insert_fields l v P HpR HnP) as (l' & Hpush & Hlen' & Hheap & Fn & Fp & Fi & Fv).
  set (E := length (heap l)) in *.
  assert (Halloc : forall p, p = root \/ p ∈ ids -> p <> E).
  { intros p Hp. rewrite list_elem_of_In in Hp.
    pose proof (represents_allocated l ids p Hrep Hp). unfold E. lia. }
  apply NoDup_cons in Hnd as [Hr Hnd'].
  exists l'. split; [exact Hpush|]. split; [|split; [exact Fv|exact Hheap]].
  split.
  - replace (root :: (ids ++ [E]) ++ [root]) with (A ++ P :: E :: [root]).
    2:{ change (A ++ P :: E :: [root]) with (A ++ [P] ++ [E] ++ [root]).
        rewrite app_assoc, <- EA. cbn [app]. now rewrite <- app_assoc. }
    apply links_app. split; [|cbn [links]; split; [split|split; [split|exact I]]].
    + apply (links_frame (heap l)); [| |exact HA].
      * intros a Ha. rewrite removelast_last in Ha.
        apply list_elem_of_In, HinA in Ha as [Ha1 Ha2]. rewrite Fn.
        rewrite decide_False by (apply Halloc; exact Ha1). now rewrite decide_False.
      * intros b Hb. apply HtlA in Hb. rewrite Fp.
        rewrite decide_False by (intros ->; contradiction).
        rewrite decide_False; [reflexivity|]. apply Halloc. now right.
    + rewrite Fn. rewrite decide_False by (apply Halloc; exact HP). now rewrite decide_True.
    + rewrite Fp. rewrite decide_False by (symmetry; apply Halloc; now left).
      now rewrite decide_True.
    + rewrite Fn. now rewrite decide_True.
    + rewrite Fp. now rewrite decide_True.
  - apply NoDup_cons. split.
    + intros Hx. mem. destruct Hx as [Hx|[Hx|[]]]; [contradiction|].
      apply (Halloc root); auto.
    + apply NoDup_app. split; [exact Hnd'|]. split; [|apply NoDup_singleton].
      intros x Hx Hx'. mem. destruct Hx' as [->|[]]. apply (Halloc E); auto.
  - intros p. rewrite Fi, in_app_iff. cbn [In]. destruct (decide (p = E)) as [->|HpE].
    + split; auto.
    + rewrite <- Hmem. intuition congruence.
  - intros p Hp. rewrite Fv. destruct (decide (p = E)); [eauto|].
    apply Hval. apply in_app_or in Hp as [Hp|[Hp|[]]]; [exact Hp|congruence].
  - rewrite Hlen', Hlen, length_app. cbn [length]. lia.
Qed.

(** [Front] and [Next] follow the represented sequence. *)
Lemma Front_represents (l : List V) (ids : list ptr) :
  represents l ids -> Front l = head ids.
Proof.
  intros [Hlinks _ _ _ Hlen]. unfold Front. rewrite Hlen.
  destruct ids as [|a ids]; [reflexivity|].
  cbn [length]. rewrite (proj2 (Z.eqb_neq _ 0)) by lia.
  cbn [app links] in Hlinks. destruct Hlinks as [[Hn _] _]. exact Hn.
Qed.

Lemma Next_represents (l : List V) (ids1 : list ptr) a (ids2 : list ptr) :
  represents l (ids1 ++ a :: ids2) -> Next l a = head ids2.
Proof.
  intros [Hlinks Hnd Hmem _ _].
  destruct (links_root_inv _ _ _ _ Hlinks)
    as (A & P & N & B & EA & EB & HA & _ & [HnE _] & _).
  assert (Hin : inList (heap l) a = true) by (apply Hmem, in_elt).
  unfold Next. unfold inList in Hin. unfold nextOf in HnE.
  destruct (heap l !! a) as [el|]; [|discriminate]. simpl in HnE. rewrite Hin, HnE.
  destruct ids2 as [|b ids2]; cbn [app] in EB; injection EB as <- _.
  - reflexivity.
  - cbn [head]. destruct (decide (b = root)) as [->|Hb].
    + exfalso. apply NoDup_cons in Hnd as [Hr _]. apply Hr. mem. auto.
    + now rewrite (proj2 (Nat.eqb_neq _ _) Hb).
Qed.

Lemma Next_detached (l : List V) a :
  inList (heap l) a = false -> Next l a = None.
Proof.
  unfold Next, inList. destruct (heap l !! a) as [el|]; [|reflexivity].
  now intros ->.
Qed.

Lemma walk_represents (l : List V) (ids1 ids2 : list ptr) (fuel : nat) :
  represents l (ids1 ++ ids2) -> length ids2 <= fuel ->
  walk fuel l (head ids2) = ids2.
Proof.
  revert ids1 fuel. induction ids2 as [|a ids2 IH]; intros ids1 fuel Hrep Hfuel.
  - destruct fuel; reflexivity.
  - destruct fuel as [|fuel]; [cbn in Hfuel; lia|]. cbn [head walk]. f_equal.
    rewrite (Next_represents l ids1 a ids2 Hrep).
    apply (IH (ids1 ++ [a])).
    + now rewrite <- app_assoc.
    + cbn in Hfuel. lia.
Qed.

Lemma toList_represents (l : List V) (ids : list ptr) :
  represents l ids -> toList l = ids.
Proof.
  intros Hrep. unfold toList. rewrite (Front_represents l ids Hrep).
  apply (walk_represents l [] ids); [exact Hrep|].
  rewrite (rep_len _ _ _ Hrep). lia.
Qed.

End Facts.
End GoListFacts.

(** ** Assignment pipeline *)

Module PipelineFacts.

Import GoList Pipeline GoListFacts.

#[local] Open Scope list_scope.

Lemma attached_snoc (evs : list Event) (e : Event) :
  attached (evs ++ [e])
  = attached evs ++ match e with Attach a _ _ _ => [a] | _ => [] end.
Proof. unfold attached. rewrite omap_app. destruct e; reflexivity. Qed.

Lemma handled_snoc (evs : list Event) (e : Event) :
  handled (evs ++ [e])
  = handled evs ++ match e with Handling a _ => [a] | _ => [] end.
Proof. unfold handled. rewrite omap_app. destruct e; reflexivity. Qed.

Section Visit.

Variable env : Env.
Variable bridge : string.

(** The visit of an element that carries an assignment, statement by
    statement. *)
Lemma handle_eq (a : ptr) (st : State) (asg : Assignment) :
  valueOf (pending st) a = Some asg ->
  handle env bridge a st
  = let now := instants (clock st) (reads (clock st)) in
    let clk := mkClock (instants (clock st)) (S (reads (clock st))) in
    let lg := log st ++ [Handling a (DeviceID asg)] in
    let seen l w := mkState (pending st) clk w (iterations st) (S (visits st)) l (panicked st) in
    if (now >? Created asg + assignmentTimeout)%Z then
      removePending a (seen (lg ++ [TimedOut a]) (world st))
    else
      match containerByMount env (visits st) (ContainerPath asg) with
      | inr _ => seen lg (world st)
      | inl containerID =>
          match pidByContainer env (visits st) containerID with
          | inr _ => seen lg (world st)
          | inl containerPid =>
              let rw := Engine.attachPodToBridge (kernel env (visits st)) bridge
                          (DeviceID asg) containerPid (world st) in
              let st1 := seen (lg ++ [Attach a (DeviceID asg) containerPid (fst rw)]) (snd rw) in
              match fst rw with
              | Engine.Panicked _ => panic st1
              | Engine.Returned _ => removePending a st1
              end
          end
      end.
Proof.
  intros Hasg. unfold handle. cbn [pending clock world iterations visits log panicked].
  rewrite Hasg. unfold Now, note.
  cbn [pending clock world iterations visits log panicked].
  destruct (_ >? _)%Z; [reflexivity|].
  destruct (containerByMount _ _ _) as [cid|]; [|reflexivity].
  destruct (pidByContainer _ _ _) as [pid|]; [|reflexivity].
  destruct (Engine.attachPodToBridge _ _ _ _ _) as [result w]. reflexivity.
Qed.

(** A visit of an element of the list either leaves the list as it is,
    or takes the element off it, or ends in a panic (of the engine). *)
Lemma handle_invariant (ids1 : list ptr) (a : ptr) (ids2 : list ptr) (st : State) :
  invariant st (ids1 ++ a :: ids2) -> panicked st = false ->
  let st' := handle env bridge a st in
  (panicked st' = false /\ pending st' = pending st
     /\ invariant st' (ids1 ++ a :: ids2) /\ removes env bridge a st = false)
  \/ (panicked st' = false /\ invariant st' (ids1 ++ ids2)
     /\ inList (heap (pending st')) a = false /\ removes env bridge a st = true)
  \/ (panicked st' = true /\ invariant st' (ids1 ++ a :: ids2)).
Proof.
  intros (Hrep & Hnd & Halloc & Hoff) Hp. cbv zeta.
  destruct (rep_values _ _ _ Hrep a (in_elt a ids1 ids2)) as [asg Hasg].
  change (valueOf (pending st) a = Some asg) in Hasg.
  destruct (Remove_represents _ _ _ _ Hrep) as (l' & Hrem & Hrep' & Hval' & Hheap' & Hin').
  specialize (Hoff Hp).
  unfold removes, resolvedAt, expiredAt. rewrite (handle_eq a st asg Hasg), Hasg.
  unfold Now. cbn [fst]. cbv zeta.
  destruct (_ >? _)%Z.
  { (* timed out *)
    right. left. unfold removePending. cbn [pending]. rewrite Hrem.
    unfold setPending. cbn [pending clock world iterations visits log panicked].
    unfold invariant. cbn [pending log panicked].
    rewrite !attached_snoc, !app_nil_r, Hheap'.
    refine (conj Hp (conj (conj Hrep' (conj Hnd (conj Halloc _))) (conj Hin' eq_refl))).
    intros _ x Hx Hx'. apply (Hoff x Hx). apply in_app_or in Hx' as [Hx'|Hx'];
      apply in_or_app; [left|right; right]; exact Hx'. }
  cbn [negb andb orb].
  destruct (containerByMount _ _ _) as [cid|].
  2:{ left. unfold invariant. cbn [pending log panicked]. rewrite attached_snoc, app_nil_r.
      refine (conj Hp (conj eq_refl (conj (conj Hrep (conj Hnd (conj Halloc _))) eq_refl))).
      intros _. exact Hoff. }
  destruct (pidByContainer _ _ _) as [pid|].
  2:{ left. unfold invariant. cbn [pending log panicked]. rewrite attached_snoc, app_nil_r.
      refine (conj Hp (conj eq_refl (conj (conj Hrep (conj Hnd (conj Halloc _))) eq_refl))).
      intros _. exact Hoff. }
  destruct (Engine.attachPodToBridge _ _ _ _ _) as [result w]. cbn [fst snd].
  assert (Hfresh : ~ In a (attached (log st))) by (intros Hx; apply (Hoff a Hx), in_elt).
  assert (Hnd' : NoDup (attached (log st) ++ [a])).
  { apply NoDup_app. split; [exact Hnd|]. split; [|apply NoDup_singleton].
    intros x Hx Hx'. apply list_elem_of_singleton in Hx'. subst x.
    apply Hfresh, list_elem_of_In, Hx. }
  assert (Ha : a < length (heap (pending st)))
    by (apply (represents_allocated _ _ _ Hrep); right; apply in_elt).
  destruct result as [err|err].
  - right. left. unfold removePending. cbn [pending]. rewrite Hrem.
    unfold setPending. cbn [pending clock world iterations visits log panicked].
    unfold invariant. cbn [pending log panicked].
    rewrite !attached_snoc, !app_nil_r, Hheap', Hp.
    refine (conj eq_refl (conj (conj Hrep' (conj Hnd' (conj _ _))) (conj Hin' _))).
    3:{ reflexivity. }
    + intros x Hx. apply in_app_or in Hx as [Hx|[<-|[]]]; auto.
    + intros _ x Hx Hx'.
      pose proof (rep_nodup _ _ _ Hrep) as Hnd0.
      destruct (NoDup_middle _ _ _ _ Hnd0) as (_ & _ & _ & _ & He1 & He2 & _).
      apply in_app_or in Hx as [Hx|[<-|[]]].
      * apply (Hoff x Hx). apply in_app_or in Hx' as [Hx'|Hx'];
          apply in_or_app; [left|right; right]; exact Hx'.
      * apply in_app_or in Hx' as [Hx'|Hx']; apply list_elem_of_In in Hx'; contradiction.
  - right. right. unfold panic, invariant. cbn [pending log panicked].
    rewrite !attached_snoc, !app_nil_r.
    refine (conj eq_refl (conj Hrep (conj Hnd' (conj _ _)))).
    + intros x Hx. apply in_app_or in Hx as [Hx|[<-|[]]]; auto.
    + discriminate.
Qed.

Lemma handled_handle (a : ptr) (st : State) (asg : Assignment) :
  valueOf (pending st) a = Some asg ->
  handled (log (handle env bridge a st)) = handled (log st) ++ [a].
Proof.
  intros Hasg. rewrite (handle_eq a st asg Hasg). cbv zeta.
  unfold removePending, setPending, panic.
  destruct (_ >? _)%Z.
  { cbn [pending]. destruct (Remove a (pending st));
      cbn [log]; now rewrite !handled_snoc, app_nil_r. }
  destruct (containerByMount _ _ _) as [cid|]; [|cbn [log]; now rewrite handled_snoc].
  destruct (pidByContainer _ _ _) as [pid|]; [|cbn [log]; now rewrite handled_snoc].
  destruct (fst _); cbn [pending]; [destruct (Remove a (pending st))|];
    cbn [log]; now rewrite !handled_snoc, app_nil_r.
Qed.

(** The scan, from any place of the list, comes to an end within as many
    visits as there are elements left, and keeps the invariant. *)
Lemma scan_invariant (ids2 ids1 : list ptr) (st : State) (fuel : nat) :
  invariant st (ids1 ++ ids2) -> panicked st = false -> length ids2 <= fuel ->
  exists st' ids', scan env bridge fuel (head ids2) st = Some st' /\ invariant st' ids'.
Proof.
  revert ids1 st fuel. induction ids2 as [|a ids2 IH]; intros ids1 st fuel Hinv Hp Hfuel.
  - exists st, (ids1 ++ []). split; [now destruct fuel|exact Hinv].
  - destruct fuel as [|fuel]; [cbn in Hfuel; lia|]. cbn [head scan].
    destruct (handle_invariant ids1 a ids2 st Hinv Hp)
      as [(Hp' & Hsame & Hinv' & _)|[(Hp' & Hinv' & Hin & _)|(Hp' & Hinv')]];
      rewrite Hp'.
    + rewrite Hsame, (Next_represents _ ids1 a ids2 (proj1 Hinv)).
      apply (IH (ids1 ++ [a])); [now rewrite <- app_assoc|exact Hp'|cbn in Hfuel; lia].
    + rewrite (Next_detached _ _ Hin). exists (handle env bridge a st), (ids1 ++ ids2).
      split; [now destruct fuel|exact Hinv'].
    + eauto.
Qed.

Lemma receive_invariant (st : State) (ids : list ptr) :
  invariant st ids -> panicked st = false ->
  exists ids', invariant (receive env st) ids' /\ panicked (receive env st) = false.
Proof.
  intros (Hrep & Hnd & Halloc & Hoff) Hp. unfold receive.
  destruct (received env (iterations st)) as [asg|]; 
    [|exists ids; exact (conj (conj Hrep (conj Hnd (conj Halloc Hoff))) Hp)].
  destruct (PushBack_represents _ _ asg Hrep) as (l' & Hpush & Hrep' & _ & Hheap).
  rewrite Hpush. exists (ids ++ [length (heap (pending st))]).
  unfold setPending, invariant. cbn [pending log panicked].
  refine (conj (conj Hrep' (conj Hnd (conj _ _))) Hp).
  - intros a Ha. rewrite Hheap. specialize (Halloc a Ha). lia.
  - intros _ a Ha Hin. apply in_app_or in Hin as [Hin|[<-|[]]].
    + exact (Hoff Hp a Ha Hin).
    + specialize (Halloc _ Ha). lia.
Qed.

Lemma iteration_invariant (st : State) (ids : list ptr) :
  invariant st ids -> panicked st = false ->
  exists st' ids', iteration env bridge st = Some st' /\ invariant st' ids'.
Proof.
  intros Hinv Hp. destruct (receive_invariant st ids Hinv Hp) as (ids' & Hinv' & Hp').
  unfold iteration. cbn [panicked pending]. rewrite Hp'.
  set (st1 := mkState _ _ _ _ _ _ _).
  assert (Hinv1 : invariant st1 ([] ++ ids')).
  { destruct Hinv' as (H1 & H2 & H3 & H4).
    exact (conj H1 (conj H2 (conj H3 (fun _ => H4 Hp')))). }
  rewrite (Front_represents _ _ (proj1 Hinv')).
  apply (scan_invariant ids' [] st1 _ Hinv1 eq_refl).
  rewrite (rep_len _ _ _ (proj1 Hinv')). lia.
Qed.

Lemma run_invariant (n : nat) (st : State) (ids : list ptr) :
  invariant st ids -> panicked st = false ->
  exists st' ids', run env bridge n st = Some st' /\ invariant st' ids'.
Proof.
  revert st ids. induction n as [|n IH]; intros st ids Hinv Hp; [cbn; eauto|].
  cbn [run]. destruct (iteration_invariant st ids Hinv Hp) as (st1 & ids1 & -> & Hinv1).
  destruct (panicked st1) eqn:Hp1; eauto.
Qed.

Lemma start_invariant (clk : Clock) (w : Engine.World) : invariant (start clk w) [].
Proof.
  unfold invariant, start. cbn [pending log panicked attached omap].
  refine (conj New_represents (conj _ (conj _ _))).
  - constructor.
  - intros a [].
  - intros _ a [].
Qed.

(** The states the worker goes through satisfy the invariant for the
    sequence its list holds. *)
Lemma reachable_invariant (n : nat) (clk : Clock) (w : Engine.World) (st : State) :
  run env bridge n (start clk w) = Some st ->
  invariant st (toList (pending st)).
Proof.
  intros Hrun.
  destruct (run_invariant n _ _ (start_invariant clk w) eq_refl) as (st' & ids & Hrun' & Hinv).
  rewrite Hrun in Hrun'. injection Hrun' as <-.
  now rewrite (toList_represents _ _ (proj1 Hinv)).
Qed.

Lemma attached_handle (a : ptr) (st : State) :
  attached (log (handle env bridge a st))
  = attached (log st) ++ (if resolvedAt env a st then [a] else []).
Proof.
  unfold resolvedAt, expiredAt.
  destruct (valueOf (pending st) a) as [asg|] eqn:Hasg.
  2:{ unfold handle. cbn [pending]. rewrite Hasg. cbn [panic log]. now rewrite app_nil_r. }
  rewrite (handle_eq a st asg Hasg). cbv zeta. unfold Now. cbn [fst].
  unfold removePending, setPending, panic.
  destruct (_ >? _)%Z.
  { cbn [pending negb andb]. destruct (Remove a (pending st));
      cbn [log]; now rewrite !attached_snoc, !app_nil_r. }
  cbn [negb andb].
  destruct (containerByMount _ _ _) as [cid|];
    [|cbn [log]; now rewrite attached_snoc].
  destruct (pidByContainer _ _ _) as [pid|];
    [|cbn [log]; now rewrite attached_snoc].
  destruct (fst _); cbn [pending]; [destruct (Remove a (pending st))|];
    cbn [log]; now rewrite !attached_snoc, app_nil_r.
Qed.

Lemma kept_handle (a : ptr) (st : State) :
  resolvedAt env a st = false -> expiredAt a st = false ->
  pending (handle env bridge a st) = pending st.
Proof.
  unfold resolvedAt, expiredAt.
  destruct (valueOf (pending st) a) as [asg|] eqn:Hasg.
  2:{ intros _ _. unfold handle. cbn [pending]. now rewrite Hasg. }
  rewrite (handle_eq a st asg Hasg). cbv zeta. unfold Now. cbn [fst].
  destruct (_ >? _)%Z; [discriminate|]. cbn [negb andb].
  destruct (containerByMount _ _ _) as [cid|]; [|reflexivity].
  destruct (pidByContainer _ _ _) as [pid|]; [discriminate|reflexivity].
Qed.

(** A visit of an element that has timed out makes no call to the engine:
    the kernel state, with its record of calls, is as before. *)
Lemma expired_handle (a : ptr) (st : State) :
  expiredAt a st = true ->
  world (handle env bridge a st) = world st
  /\ attached (log (handle env bridge a st)) = attached (log st)
  /\ timedOut (log (handle env bridge a st)) = timedOut (log st) ++ [a].
Proof.
  intros Hexp. split; [|split].
  - revert Hexp. unfold expiredAt.
    destruct (valueOf (pending st) a) as [asg|] eqn:Hasg; [|discriminate].
    rewrite (handle_eq a st asg Hasg). cbv zeta. unfold Now. cbn [fst]. intros ->.
    unfold removePending, setPending, panic. cbn [pending].
    destruct (Remove a (pending st)); reflexivity.
  - rewrite attached_handle. unfold resolvedAt.
    destruct (valueOf (pending st) a); rewrite ?Hexp, ?app_nil_r; reflexivity.
  - revert Hexp. unfold expiredAt.
    destruct (valueOf (pending st) a) as [asg|] eqn:Hasg; [|discriminate].
    rewrite (handle_eq a st asg Hasg). cbv zeta. unfold Now. cbn [fst]. intros ->.
    unfold removePending, setPending, panic, timedOut. cbn [pending].
    destruct (Remove a (pending st)); cbn [log]; rewrite !omap_app; cbn;
      now rewrite app_nil_r.
Qed.

(** C4. Over any run of the worker, whatever arrives and whatever the
    lookups, the clock and the kernel answer: the run goes on (the scans
    come to an end), no element of the list is handed to the engine twice,
    and, unless the engine has panicked, every element handed to it is off
    the list, whether the attachment succeeded or failed. A visit hands its
    element to the engine exactly when the element is resolved, and leaves
    on the list the element that is neither resolved nor timed out, for the
    lookups to be tried again at a later scan. *)
Theorem C4_each_assignment_attached_at_most_once
    (n : nat) (clk : Clock) (w : Engine.World) (a : ptr) (st : State) :
  match run env bridge n (start clk w) with
  | Some final =>
      NoDup (attached (log final))
      /\ (panicked final = true
          \/ Forall (fun x => ~ In x (toList (pending final))) (attached (log final)))
  | None => False
  end
  /\ attached (log (handle env bridge a st))
     = attached (log st) ++ (if resolvedAt env a st then [a] else [])
  /\ (resolvedAt env a st = false -> expiredAt a st = false ->
      pending (handle env bridge a st) = pending st).
Proof.
  split; [|split; [apply attached_handle | apply kept_handle]].
  destruct (run_invariant n _ _ (start_invariant clk w) eq_refl)
    as (final & ids & -> & Hrep & Hnd & _ & Hoff).
  split; [exact Hnd|].
  destruct (panicked final); [now left|right].
  rewrite (toList_represents _ _ Hrep).
  apply Forall_forall. intros x Hx. apply (Hoff eq_refl x), list_elem_of_In, Hx.
Qed.

(** C1 does not hold of the code. A visit that takes its element off the
    list (the element has timed out, or was handed to the engine, which
    returned) is the last visit of the scan: [Remove] clears the [next] and
    [list] fields of the element, [a.Next()] is nil, and the elements after
    it are left on the list without having been visited in this pass. *)
Theorem C1_scan_ends_at_the_removed_entry
    (ids1 : list ptr) (a : ptr) (ids2 : list ptr) (st : State) (fuel : nat) :
  invariant st (ids1 ++ a :: ids2) -> panicked st = false ->
  removes env bridge a st = true ->
  scan env bridge (S fuel) (Some a) st = Some (handle env bridge a st)
  /\ Next (pending (handle env bridge a st)) a = None
  /\ toList (pending (handle env bridge a st)) = ids1 ++ ids2
  /\ handled (log (handle env bridge a st)) = handled (log st) ++ [a].
Proof.
  intros Hinv Hp Hrem.
  destruct (rep_values _ _ _ (proj1 Hinv) a (in_elt a ids1 ids2)) as [asg Hasg].
  destruct (handle_invariant ids1 a ids2 st Hinv Hp)
    as [(_ & _ & _ & Hno)|[(Hp' & Hinv' & Hin & _)|(Hp' & _)]].
  - rewrite Hrem in Hno. discriminate.
  - cbn [scan]. rewrite Hp', (Next_detached _ _ Hin).
    split; [now destruct fuel|]. split; [reflexivity|]. split.
    + apply toList_represents, Hinv'.
    + apply (handled_handle a st asg Hasg).
  - exfalso. revert Hrem Hp'. unfold removes, expiredAt.
    change (valueAt (heap (pending st)) a) with (valueOf (pending st) a) in Hasg.
    rewrite Hasg. destruct (_ >? _)%Z eqn:Hexp.
    + intros _. rewrite (handle_eq a st asg Hasg). cbv zeta. unfold Now in Hexp.
      cbn [fst] in Hexp. rewrite Hexp. unfold removePending. cbn [pending].
      destruct (Remove_represents _ _ _ _ (proj1 Hinv)) as (l' & -> & _).
      cbn [setPending panicked]. congruence.
    + cbn [orb]. intros H1 H2. rewrite H2 in H1. cbn in H1.
      now rewrite andb_false_r in H1.
Qed.

End Visit.

(** C1, at a concrete run: both assignments are on the list, the first is
    resolved and attached, and the scan ends there with the second left
    unvisited. *)
Lemma C1_witness_attached_entry_ends_scan :
  invariant (Scenarios.attaching 2) ([] ++ 1 :: [2])
  /\ panicked (Scenarios.attaching 2) = false
  /\ removes Scenarios.resolvableLater "br0" 1 (Scenarios.attaching 2) = true
  /\ scan Scenarios.resolvableLater "br0" 2 (Some 1) (Scenarios.attaching 2)
     = Some (handle Scenarios.resolvableLater "br0" 1 (Scenarios.attaching 2))
  /\ toList (pending (handle Scenarios.resolvableLater "br0" 1 (Scenarios.attaching 2)))
     = [2]
  /\ handled (log (handle Scenarios.resolvableLater "br0" 1 (Scenarios.attaching 2)))
     = handled (log (Scenarios.attaching 2)) ++ [1].
Proof.
  assert (Hinv : invariant (Scenarios.attaching 2) ([] ++ 1 :: [2])).
  { exact (reachable_invariant Scenarios.resolvableLater "br0" 2 Scenarios.earlyClock
             Scenarios.hostWorld (Scenarios.attaching 2) eq_refl). }
  split; [exact Hinv|]. split; [reflexivity|]. split; [reflexivity|].
  destruct (C1_scan_ends_at_the_removed_entry Scenarios.resolvableLater "br0"
              [] 1 [2] (Scenarios.attaching 2) 1 Hinv eq_refl eq_refl)
    as (Hscan & _ & Hlist & Hlog).
  exact (conj Hscan (conj Hlist Hlog)).
Defined.

(** C5 does not hold of the code, at a concrete run: two assignments that
    no container ever mounts are on the list; the third scan reads the
    clock past the deadline of both, drops the first and ends there, so
    that the second is still on the list after a scan made past its
    deadline; the scan after drops it. Neither is handed to the engine, and
    the kernel sees no call. *)
Theorem C5_expired_entry_survives_the_next_scan :
  toList (pending (Scenarios.expiring 2)) = [1; 2]
  /\ reads (clock (Scenarios.expiring 2)) = 3
  /\ (instants Scenarios.lateClock 3 > Created Scenarios.secondAssignment + assignmentTimeout)%Z
  /\ toList (pending (Scenarios.expiring 3)) = [2]
  /\ timedOut (log (Scenarios.expiring 3)) = [1]
  /\ reads (clock (Scenarios.expiring 3)) = 4
  /\ toList (pending (Scenarios.expiring 4)) = []
  /\ timedOut (log (Scenarios.expiring 4)) = [1; 2]
  /\ attached (log (Scenarios.expiring 4)) = []
  /\ Engine.calls (world (Scenarios.expiring 4)) = [].
Proof. repeat split; vm_compute; reflexivity. Qed.

End PipelineFacts.

(** ** Runs of the attachment engine *)

Module EngineRunsFacts.

Import Engine EngineRuns EngineFacts.

#[local] Open Scope list_scope.

(** Brings what is known of the environment into the goal. *)
Ltac known :=
  repeat match goal with
  | H : fault _ _ = _ |- _ => rewrite ?H; clear H
  end.

(** What a run of attachPodToBridge comes to, whatever the kernel answers.
    When it returns, it returns the error of the first call that failed, in
    the order of the function ([nil] when none did: the errors of the
    rollback delete and of the deferred restoration are never returned),
    and the thread is in the namespace it started in. It panics only when
    the thread was switched into the namespace of the container and could
    not be switched back, and the thread is then still in that namespace. *)
Theorem attach_outcome
    (env : Env) (bridgeName nicName : string) (containerPid : Z) (w : World) :
  let (out, w') := attachPodToBridge env bridgeName nicName containerPid w in
  match out with
  | Returned err => err = firstFault env /\ threadNs w' = threadNs w
  | Panicked setErr =>
      switched env = true /\ fault env AtRestore = Some setErr
      /\ threadNs w' = podNs env
  end.
Proof.
  unfold attachPodToBridge, firstFault, steps, switched.
  destruct (randInterfaceName (rng w)) as [linkName r].
  unfold afterSwitch, rollback, deferredRestore. cbn [firstFaultOf forallb].
  repeat step; known; cbn; auto.
Qed.

(** Every call of the run succeeds. *)
Lemma firstFault_None (env : Env) :
  firstFault env = None ->
  Forall (fun s => fault env s = None) steps.
Proof.
  unfold firstFault, steps. cbn [firstFaultOf]. intros H.
  repeat match type of H with
  | context [fault env ?s] => destruct (fault env s) eqn:?; [discriminate H|]
  end.
  repeat constructor; assumption.
Qed.

Lemma made_app (w w' : World) (cs : list (Call * bool)) :
  calls w' = calls w ++ cs -> made w w' = cs.
Proof. intros H. unfold made. rewrite H. apply drop_app_length. Qed.

(** The run in which no call fails returns [nil]; it makes the twelve
    calls of the function in order, the three calls that configure the peer
    falling between the switch into the namespace of the container and the
    switch back, and none of them a delete; the veth pair it created, named
    by the random host name, enslaved to the bridge and with the MTU of the
    bridge, is in the link table. *)
Theorem attach_success
    (env : Env) (bridgeName nicName : string) (containerPid : Z) (w : World) :
  firstFault env = None -> fault env AtRestore = None ->
  let (out, w') := attachPodToBridge env bridgeName nicName containerPid w in
  out = Returned None
  /\ made w w' = successCalls env bridgeName nicName containerPid w
  /\ links w' = hostLink env nicName w :: links w
  /\ threadNs w' = threadNs w.
Proof.
  intros Hff Hrestore. apply firstFault_None in Hff. unfold steps in Hff.
  repeat match goal with
  | H : Forall _ (_ :: _) |- _ => apply Forall_cons in H as [? H]
  end.
  unfold attachPodToBridge, successCalls, hostLink, hostLinkName.
  destruct (randInterfaceName (rng w)) as [linkName r]. cbn [fst].
  unfold afterSwitch, rollback, deferredRestore.
  repeat step. cbn [calls links threadNs record effect LinkName VethMTU].
  split; [reflexivity|]. split; [|split; reflexivity].
  apply made_app. cbn [calls]. rewrite <- !app_assoc. reflexivity.
Qed.


(** A run deletes a link at most once, and only to roll back: it calls
    netlink.LinkDel once when the veth pair was created and a later call
    failed, and never otherwise (not on success, not when the creation
    itself failed). The thread changes namespace twice when the switch into
    the container succeeded (once when the way back fails), and never
    otherwise. *)
Theorem attach_deletes_only_to_roll_back
    (env : Env) (bridgeName nicName : string) (containerPid : Z) (w : World) :
  let w' := snd (attachPodToBridge env bridgeName nicName containerPid w) in
  count isDelete (made w w')
  = (if created env && match firstFault env with Some _ => true | None => false end
     then 1 else 0)
  /\ count isSwitch (made w w')
     = (if switched env
        then match fault env AtRestore with None => 2 | Some _ => 1 end
        else 0).
Proof.
  cbv zeta. unfold attachPodToBridge, firstFault, steps, created, switched.
  destruct (randInterfaceName (rng w)) as [linkName r].
  unfold afterSwitch, rollback, deferredRestore. cbn [firstFaultOf forallb].
  repeat step; known; cbn [snd andb];
    match goal with
    | |- context [made ?w0 ?w1] =>
        let cs := fresh "cs" in
        evar (cs : list (Call * bool));
        assert (Hm : made w0 w1 = cs)
          by (apply made_app; cbn [calls record effect]; rewrite <- ?app_assoc;
              cbn [app]; subst cs; reflexivity);
        rewrite !Hm; subst cs
    end; split; reflexivity.
Qed.

(** The runs of the scenarios: all calls succeed; the MTU step fails. *)
Lemma attach_success_witness :
  firstFault Scenarios.kernelOk = None
  /\ fault Scenarios.kernelOk AtRestore = None
  /\ fst (attachPodToBridge Scenarios.kernelOk "br0" "br0-07" 4242 Scenarios.hostWorld)
     = Returned None
  /\ map LinkName
         (links (snd (attachPodToBridge Scenarios.kernelOk "br0" "br0-07" 4242
                        Scenarios.hostWorld)))
     = ["nic_aaaaaaaaaaa"].
Proof.
  split; [reflexivity|]. split; [reflexivity|].
  pose proof (attach_success Scenarios.kernelOk "br0" "br0-07" 4242 Scenarios.hostWorld
                eq_refl eq_refl) as H.
  destruct (attachPodToBridge Scenarios.kernelOk "br0" "br0-07" 4242 Scenarios.hostWorld)
    as [out w'].
  destruct H as (Hout & _ & Hlinks & _). cbn [fst snd]. rewrite Hlinks.
  split; [exact Hout | reflexivity].
Defined.


End EngineRunsFacts.

(** ** Names and paths *)

Module NamingFacts.

Import Naming.

#[local] Open Scope list_scope.

Lemma letterBytes_lowerAlnum (k : nat) :
  k < 36 -> lowerAlnum (byteAt letterBytes k) = true.
Proof.
  intros Hk.
  assert (Hall : forallb (fun k => lowerAlnum (byteAt letterBytes k)) (seq 0 36) = true)
    by (vm_compute; reflexivity).
  rewrite forallb_forall in Hall. apply Hall, in_seq. lia.
Qed.

Lemma randStringLoop_length (n : nat) (r : Rand) :
  String.length (fst (randStringLoop n r)) = n.
Proof.
  rewrite AllocatorFacts.randStringLoop_chars.
  now rewrite AllocatorFacts.length_of_list, length_map, length_seq.
Qed.

Lemma randStringLoop_lowerAlnum (n : nat) (r : Rand) :
  forallb lowerAlnum (list_ascii_of_string (fst (randStringLoop n r))) = true.
Proof.
  rewrite AllocatorFacts.randStringLoop_chars, list_ascii_of_string_of_list_ascii.
  apply forallb_forall. intros c Hc. apply in_map_iff in Hc as (j & <- & _).
  apply letterBytes_lowerAlnum. apply Nat.mod_upper_bound. discriminate.
Qed.

(** randString: as many bytes as asked for (none for length zero), each a
    lower-case letter or a digit, for as many draws from the random
    source. *)
Theorem randString_shape (length : nat) (r : Rand) :
  String.length (fst (randString length r)) = length
  /\ forallb lowerAlnum (list_ascii_of_string (fst (randString length r))) = true
  /\ snd (randString length r) = advance r length.
Proof.
  unfold randString. split; [apply randStringLoop_length|].
  split; [apply randStringLoop_lowerAlnum|].
  apply AllocatorFacts.randStringLoop_rand.
Qed.

(** randInterfaceName: the prefix nic_ and eleven lower-case letters or
    digits, fifteen bytes in all (the most the kernel takes for the name of
    an interface), for eleven draws. *)
Theorem randInterfaceName_shape (r : Rand) :
  exists suffix,
    fst (randInterfaceName r) = (interfaceNamePrefix ++ suffix)%string
    /\ String.length suffix = 11
    /\ forallb lowerAlnum (list_ascii_of_string suffix) = true
    /\ String.length (fst (randInterfaceName r)) = interfaceNameLen
    /\ snd (randInterfaceName r) = advance r 11.
Proof.
  unfold randInterfaceName, randString.
  change (interfaceNameLen - String.length interfaceNamePrefix) with 11.
  pose proof (randStringLoop_length 11 r) as Hlen.
  pose proof (randStringLoop_lowerAlnum 11 r) as Hall.
  pose proof (AllocatorFacts.randStringLoop_rand 11 r) as Hrng.
  destruct (randStringLoop 11 r) as [suffix r']. cbn [fst snd] in *.
  exists suffix. repeat split; auto.
  change (4 + String.length suffix = 15). now rewrite Hlen.
Qed.

Lemma slash_split (b1 b2 n1 n2 : string) :
  noSlash b1 = true -> noSlash b2 = true ->
  (b1 ++ "/" ++ n1 = b2 ++ "/" ++ n2)%string -> b1 = b2 /\ n1 = n2.
Proof.
  revert b2. induction b1 as [|c b1 IH]; intros [|d b2] H1 H2 Heq.
  - now injection Heq.
  - exfalso. injection Heq as Hc _. subst d. discriminate H2.
  - exfalso. injection Heq as Hc _. subst c. discriminate H1.
  - injection Heq as -> Heq.
    unfold noSlash in H1, H2. cbn [list_ascii_of_string forallb] in H1, H2.
    apply andb_prop in H1 as [_ H1]. apply andb_prop in H2 as [_ H2].
    destruct (IH b2 H1 H2 Heq) as [-> ->]. auto.
Qed.

(** getAssignmentPath tells the device IDs of a bridge apart: two device
    IDs of one bridge have the same path only when they are the same. *)
Theorem getAssignmentPath_per_bridge (bridge nic1 nic2 : string) :
  getAssignmentPath bridge nic1 = getAssignmentPath bridge nic2 <-> nic1 = nic2.
Proof.
  split; [|now intros ->]. unfold getAssignmentPath. intros H.
  apply (inj (String.append _)) in H. apply (inj (String.append _)) in H.
  now apply (inj (String.append _)) in H.
Qed.

(** Across bridges whose names have no slash in them (the kernel allows
    none in the name of an interface), the path tells both the bridge and
    the device ID. *)
Theorem getAssignmentPath_injective (bridge1 bridge2 nic1 nic2 : string) :
  noSlash bridge1 = true -> noSlash bridge2 = true ->
  getAssignmentPath bridge1 nic1 = getAssignmentPath bridge2 nic2 ->
  bridge1 = bridge2 /\ nic1 = nic2.
Proof.
  intros H1 H2 H. unfold getAssignmentPath in H.
  apply (inj (String.append _)) in H. now apply slash_split.
Qed.

Lemma getAssignmentPath_injective_witness :
  noSlash "br0" = true /\ noSlash "br0" = true
  /\ getAssignmentPath "br0" "br0-07" = getAssignmentPath "br0" "br0-07"
  /\ "br0" = "br0" /\ "br0-07" = "br0-07".
Proof.
  split; [reflexivity|]. split; [reflexivity|]. split; [reflexivity|].
  apply (getAssignmentPath_injective "br0" "br0" "br0-07" "br0-07"); reflexivity.
Defined.

Lemma twoDigits_inj (i j : nat) :
  i < 100 -> j < 100 -> Advertiser.twoDigits i = Advertiser.twoDigits j -> i = j.
Proof.
  intros Hi Hj Heq.
  assert (Hall : forallb (fun i => forallb (fun j =>
            implb (String.eqb (Advertiser.twoDigits i) (Advertiser.twoDigits j))
                  (Nat.eqb i j)) (seq 0 100)) (seq 0 100) = true)
    by (vm_compute; reflexivity).
  rewrite forallb_forall in Hall. specialize (Hall i). rewrite forallb_forall in Hall.
  assert (Hij := Hall ltac:(apply in_seq; lia) j ltac:(apply in_seq; lia)).
  rewrite Heq, String.eqb_refl in Hij. cbn in Hij. now apply Nat.eqb_eq.
Qed.

Lemma NoDup_map_inj_on {A B : Type} (f : A -> B) (l : list A) :
  (forall x y, In x l -> In y l -> f x = f y -> x = y) ->
  NoDup l -> NoDup (map f l).
Proof.
  intros Hinj Hnd. induction Hnd as [|a l Ha Hnd IH]; cbn [map]; constructor.
  - rewrite list_elem_of_In, in_map_iff. intros (x & Hx & Hl).
    apply Ha, list_elem_of_In. rewrite <- (Hinj x a); auto; [now right | now left].
  - apply IH. intros x y Hx Hy. apply Hinj; now right.
Qed.

(** The devices ListAndWatch advertises for a bridge have pairwise distinct
    IDs, and the paths Allocate derives from these IDs are pairwise
    distinct as well. *)
Theorem advertised_devices_distinct (bridge : string) :
  NoDup (map Advertiser.ID (Advertiser.generateBridgeDevices bridge))
  /\ NoDup (map (fun d => getAssignmentPath bridge (Advertiser.ID d))
                (Advertiser.generateBridgeDevices bridge)).
Proof.
  rewrite AdvertiserFacts.generateBridgeDevices_pool, !map_map. cbn [Advertiser.ID].
  assert (Hseq : NoDup (seq 0 100)) by apply NoDup_seq.
  split; apply NoDup_map_inj_on; try exact Hseq; intros i j Hi Hj Heq;
    apply in_seq in Hi; apply in_seq in Hj.
  - apply (inj (String.append _)) in Heq. apply (inj (String.append _)) in Heq.
    apply twoDigits_inj; [lia|lia|exact Heq].
  - unfold getAssignmentPath in Heq. do 5 apply (inj (String.append _)) in Heq.
    apply twoDigits_inj; [lia|lia|exact Heq].
Qed.

End NamingFacts.

(** ** The stream of the advertiser *)

Module WatchFacts.

Import Advertiser Prober.

#[local] Open Scope list_scope.

Lemma watchLoop_alternates (bridge : string) (polls : list bool) (did : bool) :
  concat (watchLoop bridge did polls)
  = map (fun k => emitResponse bridge (if Nat.even k then negb did else did))
        (seq 0 (countTransitions did polls)).
Proof.
  revert did. induction polls as [|b rest IH]; intros did; [reflexivity|].
  cbn [watchLoop countTransitions]. unfold watchTick.
  destruct (Bool.eqb did b) eqn:E; cbn [negb concat app Nat.add].
  - apply Bool.eqb_prop in E. subst b. apply IH.
  - assert (Hb : b = negb did) by (destruct did, b; try discriminate; reflexivity).
    subst b. rewrite IH. cbn [seq map Nat.even]. f_equal.
    rewrite <- seq_shift, map_map. apply map_ext. intros k.
    rewrite Nat.even_succ, <- Nat.negb_even, negb_involutive.
    destruct (Nat.even k); reflexivity.
Qed.

(** The messages of a stream alternate: the first is that of the state
    found at the start, and every message after is that of the state
    opposite to the one before; there are as many as transitions, plus
    one. The stream never carries the same state twice in a row. *)
Theorem ListAndWatch_alternates (bridge : string) (first : bool) (polls : list bool) :
  ListAndWatch bridge first polls
  = map (fun k => emitResponse bridge (if Nat.even k then first else negb first))
        (seq 0 (S (countTransitions first polls))).
Proof.
  unfold ListAndWatch. rewrite watchLoop_alternates. cbn [seq map Nat.even]. f_equal.
  rewrite <- seq_shift, map_map. apply map_ext. intros k.
  rewrite Nat.even_succ, <- Nat.negb_even. destruct (Nat.even k); reflexivity.
Qed.

Lemma last_cons_default {A : Type} (rest : list A) (b d : A) :
  List.last (b :: rest) d = List.last rest b.
Proof.
  revert b d. induction rest as [|c rest IH]; intros b d; [reflexivity|].
  change (List.last (c :: rest) d = List.last (c :: rest) b). now rewrite !IH.
Qed.

Lemma watchLoop_last (bridge : string) (polls : list bool) (did : bool) :
  last (emitResponse bridge did :: concat (watchLoop bridge did polls))
  = Some (emitResponse bridge (List.last polls did)).
Proof.
  revert did. induction polls as [|b rest IH]; intros did; [reflexivity|].
  cbn [watchLoop]. unfold watchTick.
  rewrite last_cons_default.
  destruct (Bool.eqb did b) eqn:E; cbn [negb concat app].
  - apply Bool.eqb_prop in E. subst b. apply IH.
  - rewrite last_cons_cons. apply IH.
Qed.

(** At any time the last message of the stream is that of the latest
    probe: the pool of devices when the latest lookup found a link that is
    a bridge, the empty list when it failed or found a link of another
    type under that name. *)
Theorem watch_last_message (bridge : string) (first : Lookup) (probes : list Lookup) :
  last (watch bridge first probes)
  = Some (emitResponse bridge (bridgeExists (List.last probes first))).
Proof.
  unfold watch, ListAndWatch. rewrite watchLoop_last. do 2 f_equal.
  revert first. induction probes as [|p rest IH]; intros first; [reflexivity|].
  cbn [map]. rewrite !last_cons_default. apply IH.
Qed.

End WatchFacts.

(** ** Edges of Allocate *)

Module AllocateEdgeFacts.

Import Allocator Literal AllocatorFacts.

#[local] Open Scope list_scope.

(** A request without device IDs still gets its response entry: no device
    spec, and one environment variable whose descriptor has [null] for its
    interfaces (the slice of the request is nil), not an empty array.
    Nothing is sent for it and the clock is not read, but its eight letters
    are drawn. *)
Theorem allocate_request_without_devices
    (resourceNamespace bridge : string) (st : State) :
  allocateOne resourceNamespace marshalsAll bridge (mkRequest []) st
  = (Some (mkContainerResponse []
             [(requestName (rng st) 0, nullValue resourceNamespace bridge)]),
     mkState (advance (rng st) envVarNameSuffixLen) (clock st)
             (events st
                ++ [Marshalled (mkResources (resourceNamespace ++ "/" ++ bridge)%string []) true])).
Proof.
  rewrite allocateOne_spec. unfold entryOf, marshals, marshalsAll, devicesOf, descriptorOf.
  cbn [DevicesIDs map length assignmentsOf imap app].
  f_equal. unfold later. rewrite Nat.add_0_r. destruct (clock st); reflexivity.
Qed.





Lemma devicesOf_paths (bridge : string) (reqs : list ContainerAllocateRequest) :
  map SpecContainerPath (concat (map (devicesOf bridge) reqs))
  = map (getAssignmentPath bridge) (flat_map DevicesIDs reqs).
Proof.
  induction reqs as [|req rest IH]; [reflexivity|].
  cbn [map concat flat_map]. rewrite !map_app, IH. f_equal.
  unfold devicesOf. rewrite map_map. reflexivity.
Qed.

Lemma flat_map_filter_incl {A B : Type} (f : A -> list B) (p : A -> bool) (l : list A) :
  incl (flat_map f (List.filter p l)) (flat_map f l).
Proof.
  intros x Hx. apply in_flat_map in Hx as (a & Ha & Hx).
  apply filter_In in Ha as [Ha _]. apply in_flat_map. eauto.
Qed.

(** The paths Allocate hands out for mounting and the paths it gives the
    worker to look for are the same paths: the container paths of the
    device specs of a response are those of the device IDs of the requests
    that got an entry, in order; the assignments sent carry those of the
    device IDs of all requests, in order; so every path to be mounted is
    the path of an assignment sent in the same call. *)
Theorem allocate_mounted_paths_are_assigned
    (resourceNamespace : string)
    (marshalError : networkInterfaceResources -> option string) (bridge : string)
    (reqs : list ContainerAllocateRequest) (st : State) :
  let '((resp, _), st') := Allocate resourceNamespace marshalError bridge reqs st in
  let mounted := map SpecContainerPath (flat_map Devices (ContainerResponses resp)) in
  let assigned := map ContainerPath (sent (events st')) in
  mounted
  = map (getAssignmentPath bridge)
        (flat_map DevicesIDs
           (List.filter (marshals resourceNamespace marshalError bridge) reqs))
  /\ assigned
     = map ContainerPath (sent (events st))
         ++ map (getAssignmentPath bridge) (flat_map DevicesIDs reqs)
  /\ incl mounted assigned.
Proof.
  unfold Allocate. rewrite requestsLoop_spec. cbn [app ContainerResponses events]. cbv zeta.
  assert (Hm : map SpecContainerPath
                 (flat_map Devices
                    (omap id (imap (entryOf resourceNamespace marshalError bridge (rng st)) reqs)))
               = map (getAssignmentPath bridge)
                   (flat_map DevicesIDs
                      (List.filter (marshals resourceNamespace marshalError bridge) reqs))).
  { rewrite flat_map_concat_map, entries_devices. apply devicesOf_paths. }
  assert (Ha : map ContainerPath
                 (sent (events st
                          ++ eventsOf resourceNamespace marshalError bridge (clock st) reqs))
               = map ContainerPath (sent (events st))
                   ++ map (getAssignmentPath bridge) (flat_map DevicesIDs reqs)).
  { now rewrite sent_app, map_app, sent_eventsOf_paths. }
  split; [exact Hm|]. split; [exact Ha|].
  rewrite Hm, Ha. intros x Hx. apply in_or_app. right.
  apply in_map_iff in Hx as (d & <- & Hd). apply in_map.
  exact (flat_map_filter_incl _ _ _ _ Hd).
Qed.

End AllocateEdgeFacts.

(** ** Start of the plugin *)

Module StartupFacts.

Import Startup.

#[local] Open Scope list_scope.

(** Start never returns an error: it returns [nil], or the process ends
    (it exits when [mknod] fails, it panics when [os.Stat] fails for another
    reason than the absence of the device). The worker is launched exactly
    when Start returns, after the device was found or made; [mknod] is run
    at most once, and only when [os.Stat] reported the device as absent. *)
Theorem Start_outcomes (env : Env) :
  let (out, evs) := Start env in
  (forall err, out <> Returned (Some err))
  /\ (existsb isLaunch evs = true <-> out = Returned None)
  /\ (out = Returned None
      <-> statAnswer env = StatFound
          \/ ((exists e, statAnswer env = StatNotExist e) /\ mknodError env = None))
  /\ length (List.filter isCommand evs)
     = (match statAnswer env with StatNotExist _ => 1 | _ => 0 end)
  /\ (out = Exited
      <-> (exists e, statAnswer env = StatNotExist e) /\ mknodError env <> None).
Proof.
  unfold Start, createFakeDevice.
  destruct (statAnswer env) as [|e|e] eqn:Hstat; [| destruct (mknodError env) as [m|] eqn:Hm |];
    cbn; repeat split; try discriminate; try congruence; eauto;
    try (intros [H|[[x H] H']]; congruence);
    try (intros [[x H] H']; congruence).
Qed.

End StartupFacts.

(** ** Passes over the pending list *)

Module PassFacts.

Import GoList Pipeline Passes GoListFacts PipelineFacts.

#[local] Open Scope list_scope.

Section Pass.

Variable env : Env.
Variable bridge : string.

(** The visit of an element that is not resolved (it has timed out, or a
    lookup failed) makes no call to the kernel and hands nothing to the
    engine: being past the deadline comes first, whatever the lookups
    would answer. *)
Theorem unresolved_visit_makes_no_call (a : ptr) (st : State) :
  resolvedAt env a st = false ->
  world (handle env bridge a st) = world st
  /\ attached (log (handle env bridge a st)) = attached (log st).
Proof.
  intros Hres. split.
  - revert Hres. unfold resolvedAt, expiredAt.
    destruct (valueOf (pending st) a) as [asg|] eqn:Hasg.
    2:{ intros _. unfold handle. cbn [pending]. now rewrite Hasg. }
    rewrite (handle_eq env bridge a st asg Hasg). cbv zeta. unfold Now. cbn [fst].
    unfold removePending, setPending, panic.
    destruct (_ >? _)%Z.
    { intros _. cbn [pending]. destruct (Remove a (pending st)); reflexivity. }
    cbn [negb andb].
    destruct (containerByMount _ _ _) as [cid|]; [|reflexivity].
    destruct (pidByContainer _ _ _) as [pid|]; [discriminate|reflexivity].
  - rewrite attached_handle, Hres. apply app_nil_r.
Qed.

(** What a scan does to the list, from any place of it. *)
Lemma scan_shape (ids2 ids1 : list ptr) (st : State) (fuel : nat) :
  invariant st (ids1 ++ ids2) -> panicked st = false -> length ids2 <= fuel ->
  exists st' visited rest,
    scan env bridge fuel (head ids2) st = Some st'
    /\ ids2 = visited ++ rest
    /\ handled (log st') = handled (log st) ++ visited
    /\ ((invariant st' (ids1 ++ ids2) /\ (rest = [] \/ panicked st' = true))
        \/ (exists v a, visited = v ++ [a] /\ panicked st' = false
                        /\ invariant st' (ids1 ++ v ++ rest))).
Proof.
  revert ids1 st fuel. induction ids2 as [|a ids2 IH]; intros ids1 st fuel Hinv Hp Hfuel.
  - exists st, [], []. split; [now destruct fuel|]. split; [reflexivity|].
    split; [now rewrite app_nil_r|]. left. auto.
  - destruct fuel as [|fuel]; [cbn in Hfuel; lia|]. cbn [head scan].
    destruct (rep_values _ _ _ (proj1 Hinv) a (in_elt a ids1 ids2)) as [asg Hasg].
    pose proof (handled_handle env bridge a st asg Hasg) as Hlog.
    destruct (handle_invariant env bridge ids1 a ids2 st Hinv Hp)
      as [(Hp' & Hsame & Hinv' & _)|[(Hp' & Hinv' & Hin & _)|(Hp' & Hinv')]];
      rewrite Hp'.
    + rewrite Hsame, (Next_represents _ ids1 a ids2 (proj1 Hinv)).
      assert (Hinv1 : invariant (handle env bridge a st) ((ids1 ++ [a]) ++ ids2))
        by now rewrite <- app_assoc.
      destruct (IH (ids1 ++ [a]) _ fuel Hinv1 Hp' ltac:(cbn in Hfuel; lia))
        as (st' & visited & rest & Hscan & Hsplit & Hlog' & Hcases).
      exists st', (a :: visited), rest.
      split; [exact Hscan|]. split; [now rewrite Hsplit|].
      split; [now rewrite Hlog', Hlog, <- app_assoc|].
      destruct Hcases as [[Hi Hr]|(v & x & Hv & Hpx & Hi)].
      * left. split; [now rewrite <- app_assoc in Hi|exact Hr].
      * right. exists (a :: v), x. split; [now rewrite Hv|]. split; [exact Hpx|].
        now rewrite <- app_assoc in Hi.
    + rewrite (Next_detached _ _ Hin).
      exists (handle env bridge a st), [a], ids2.
      split; [now destruct fuel|]. split; [reflexivity|]. split; [exact Hlog|].
      right. exists [], a. auto.
    + exists (handle env bridge a st), [a], ids2.
      split; [reflexivity|]. split; [reflexivity|]. split; [exact Hlog|].
      left. auto.
Qed.

Lemma receive_shape (st : State) (ids : list ptr) :
  invariant st ids -> panicked st = false ->
  invariant (receive env st) (ids ++ arrival env st)
  /\ panicked (receive env st) = false
  /\ log (receive env st) = log st
  /\ iterations (receive env st) = iterations st.
Proof.
  intros (Hrep & Hnd & Halloc & Hoff) Hp. unfold receive, arrival.
  destruct (received env (iterations st)) as [asg|].
  2:{ rewrite app_nil_r.
      exact (conj (conj Hrep (conj Hnd (conj Halloc Hoff))) (conj Hp (conj eq_refl eq_refl))). }
  destruct (PushBack_represents _ _ asg Hrep) as (l' & Hpush & Hrep' & _ & Hheap).
  rewrite Hpush. unfold setPending, invariant. cbn [pending log panicked iterations].
  refine (conj (conj Hrep' (conj Hnd (conj _ _))) (conj Hp (conj eq_refl eq_refl))).
  - intros a Ha. rewrite Hheap. specialize (Halloc a Ha). lia.
  - intros _ a Ha Hin. apply in_app_or in Hin as [Hin|[<-|[]]].
    + exact (Hoff Hp a Ha Hin).
    + specialize (Halloc _ Ha). lia.
Qed.

(** What one iteration of the outer loop does to the list. *)
Lemma iteration_shape (st : State) (ids : list ptr) :
  invariant st ids -> panicked st = false ->
  exists st' visited rest,
    iteration env bridge st = Some st'
    /\ ids ++ arrival env st = visited ++ rest
    /\ handled (log st') = handled (log st) ++ visited
    /\ ((invariant st' (ids ++ arrival env st) /\ (rest = [] \/ panicked st' = true))
        \/ (exists v a, visited = v ++ [a] /\ panicked st' = false
                        /\ invariant st' (v ++ rest))).
Proof.
  intros Hinv Hp.
  destruct (receive_shape st ids Hinv Hp) as (Hinv' & Hp' & Hlog & _).
  unfold iteration. cbn [panicked pending]. rewrite Hp'.
  set (st1 := mkState _ _ _ _ _ _ _).
  assert (Hinv1 : invariant st1 ([] ++ (ids ++ arrival env st))).
  { destruct Hinv' as (H1 & H2 & H3 & H4).
    exact (conj H1 (conj H2 (conj H3 (fun _ => H4 Hp')))). }
  rewrite (Front_represents _ _ (proj1 Hinv')).
  destruct (scan_shape (ids ++ arrival env st) [] st1
              (Z.to_nat (len (pending (receive env st)))) Hinv1 eq_refl)
    as (st' & visited & rest & Hscan & Hsplit & Hlog' & Hcases).
  { rewrite (rep_len _ _ _ (proj1 Hinv')). lia. }
  exists st', visited, rest. split; [exact Hscan|]. split; [exact Hsplit|].
  split; [rewrite Hlog'; unfold st1; cbn [log]; now rewrite Hlog|].
  exact Hcases.
Qed.

(** One iteration of the outer loop takes at most one element off the
    list: after it the list is the list of before, with the arrival at its
    back, or that list less one element, the last one visited. *)
Theorem pass_removes_at_most_one (st : State) (ids : list ptr) :
  invariant st ids -> panicked st = false ->
  exists st',
    iteration env bridge st = Some st'
    /\ length ids + length (arrival env st) <= S (length (toList (pending st')))
    /\ (toList (pending st') = ids ++ arrival env st
        \/ exists v a rest,
             ids ++ arrival env st = v ++ a :: rest
             /\ toList (pending st') = v ++ rest
             /\ handled (log st') = handled (log st) ++ v ++ [a]).
Proof.
  intros Hinv Hp.
  destruct (iteration_shape st ids Hinv Hp)
    as (st' & visited & rest & Hit & Hsplit & Hlog & [[Hi _]|(v & a & Hv & _ & Hi)]).
  - exists st'. split; [exact Hit|].
    rewrite (toList_represents _ _ (proj1 Hi)), length_app. split; [lia|now left].
  - exists st'. split; [exact Hit|].
    rewrite (toList_represents _ _ (proj1 Hi)).
    assert (Hlen : length ids + length (arrival env st) = length (visited ++ rest))
      by now rewrite <- Hsplit, length_app.
    rewrite Hv, <- app_assoc in Hlen. rewrite !length_app in *. cbn [length] in Hlen.
    split; [lia|]. right. exists v, a, rest.
    split; [now rewrite Hsplit, Hv, <- app_assoc|]. split; [reflexivity|].
    now rewrite Hlog, Hv.
Qed.

(** No element waits for ever behind the others: in one iteration of the
    outer loop an element of the list is visited, or the worker panics, or
    the element is still on the list with fewer elements ahead of it than
    before. *)
Theorem pass_reaches_or_advances
    (pre : list ptr) (a : ptr) (post : list ptr) (st : State) :
  invariant st (pre ++ a :: post) -> panicked st = false ->
  exists st' visited,
    iteration env bridge st = Some st'
    /\ handled (log st') = handled (log st) ++ visited
    /\ (In a visited
        \/ panicked st' = true
        \/ exists pre',
             toList (pending st') = pre' ++ a :: post ++ arrival env st
             /\ length pre' < length pre).
Proof.
  intros Hinv Hp.
  destruct (iteration_shape st _ Hinv Hp)
    as (st' & visited & rest & Hit & Hsplit & Hlog & Hcases).
  exists st', visited. split; [exact Hit|]. split; [exact Hlog|].
  rewrite <- app_assoc in Hsplit. cbn [app] in Hsplit.
  destruct Hcases as [[Hi [->|Hpanic]]|(v & x & Hv & _ & Hi)].
  - left. rewrite app_nil_r in Hsplit. rewrite <- Hsplit. apply in_elt.
  - right. now left.
  - apply app_eq_inv in Hsplit as [(k & Hk1 & Hk2)|(k & Hk1 & Hk2)].
    + right. right. exists (v ++ k).
      rewrite (toList_represents _ _ (proj1 Hi)), Hk2, <- app_assoc.
      split; [reflexivity|]. rewrite Hk1, Hv, !length_app. cbn. lia.
    + destruct k as [|y k].
      * right. right. rewrite app_nil_r in Hk1. cbn [app] in Hk2.
        exists v. rewrite (toList_represents _ _ (proj1 Hi)), <- Hk2.
        split; [reflexivity|]. rewrite <- Hk1, Hv, length_app. cbn. lia.
      * left. cbn [app] in Hk2. injection Hk2 as <- _. rewrite Hk1. apply in_elt.
Qed.

End Pass.
(** The runs of the scenarios. *)
Lemma unresolved_visit_witness :
  resolvedAt Scenarios.resolvableLater 1 (Scenarios.attaching 1) = false
  /\ world (handle Scenarios.resolvableLater "br0" 1 (Scenarios.attaching 1))
     = world (Scenarios.attaching 1)
  /\ attached (log (handle Scenarios.resolvableLater "br0" 1 (Scenarios.attaching 1)))
     = attached (log (Scenarios.attaching 1)).
Proof.
  assert (H : resolvedAt Scenarios.resolvableLater 1 (Scenarios.attaching 1) = false)
    by (vm_compute; reflexivity).
  split; [exact H|].
  exact (unresolved_visit_makes_no_call Scenarios.resolvableLater "br0" 1
           (Scenarios.attaching 1) H).
Defined.

Lemma pass_removes_at_most_one_witness :
  invariant (Scenarios.attaching 2) [1; 2]
  /\ panicked (Scenarios.attaching 2) = false
  /\ exists st',
       iteration Scenarios.resolvableLater "br0" (Scenarios.attaching 2) = Some st'
       /\ length [1; 2] + length (arrival Scenarios.resolvableLater (Scenarios.attaching 2))
          <= S (length (toList (pending st'))).
Proof.
  assert (Hinv : invariant (Scenarios.attaching 2) [1; 2]).
  { exact (reachable_invariant Scenarios.resolvableLater "br0" 2 Scenarios.earlyClock
             Scenarios.hostWorld (Scenarios.attaching 2) eq_refl). }
  split; [exact Hinv|]. split; [reflexivity|].
  destruct (pass_removes_at_most_one Scenarios.resolvableLater "br0"
              (Scenarios.attaching 2) [1; 2] Hinv eq_refl) as (st' & Hit & Hlen & _).
  exists st'. split; [exact Hit|exact Hlen].
Defined.

Lemma pass_reaches_or_advances_witness :
  invariant (Scenarios.attaching 2) ([1] ++ 2 :: [])
  /\ panicked (Scenarios.attaching 2) = false
  /\ exists st' visited,
       iteration Scenarios.resolvableLater "br0" (Scenarios.attaching 2) = Some st'
       /\ handled (log st') = handled (log (Scenarios.attaching 2)) ++ visited.
Proof.
  assert (Hinv : invariant (Scenarios.attaching 2) ([1] ++ 2 :: [])).
  { exact (reachable_invariant Scenarios.resolvableLater "br0" 2 Scenarios.earlyClock
             Scenarios.hostWorld (Scenarios.attaching 2) eq_refl). }
  split; [exact Hinv|]. split; [reflexivity|].
  destruct (pass_reaches_or_advances Scenarios.resolvableLater "br0"
              [1] 2 [] (Scenarios.attaching 2) Hinv eq_refl)
    as (st' & visited & Hit & Hlog & _).
  exists st', visited. split; [exact Hit|exact Hlog].
Defined.

End PassFacts.

(** ** Order of the pending list *)

Module OrderFacts.

Import GoList Pipeline Passes GoListFacts PipelineFacts.

#[local] Open Scope list_scope.

(** [Remove] leaves the values of all elements as they are, also that of
    the element it takes off. *)
Lemma Remove_keeps_values {V : Type} (e : ptr) (l l' : List V) :
  Remove e l = Some l' ->
  forall q, valueAt (heap l') q = valueAt (heap l) q.
Proof.
  unfold Remove, remove. intros H q.
  destruct (heap l !! e) as [el|]; cbn in H; [|discriminate].
  destruct (list_ el); [|now injection H as <-].
  destruct (prev el) as [p|]; cbn in H; [|discriminate].
  destruct (heap l !! p); cbn in H; [|discriminate].
  destruct (alter _ p (heap l) !! e) as [el'|]; cbn in H; [|discriminate].
  destruct (next el') as [n|]; cbn in H; [|discriminate].
  destruct (alter _ p (heap l) !! n); cbn in H; [|discriminate].
  injection H as <-. cbn [heap].
  now rewrite !valueAt_alter by (intros _ x; reflexivity).
Qed.

Lemma arrived_S (env : Env) (n : nat) :
  arrived env (S n)
  = arrived env n ++ match received env n with Some a => [a] | None => [] end.
Proof.
  unfold arrived. rewrite seq_S, omap_app. cbn. now destruct (received env n).
Qed.

Lemma omap_ext_in {A B : Type} (f g : A -> option B) (l : list A) :
  (forall x, In x l -> f x = g x) -> omap f l = omap g l.
Proof.
  induction l as [|x l IH]; intros H; [reflexivity|]. cbn.
  rewrite (H x (or_introl eq_refl)), IH; [reflexivity|].
  intros y Hy. apply H. now right.
Qed.

Lemma omap_sublist {A B : Type} (f : A -> option B) (l k : list A) :
  sublist l k -> sublist (omap f l) (omap f k).
Proof.
  induction 1 as [|x l k _ IH|x l k _ IH]; cbn.
  - constructor.
  - destruct (f x); [now constructor|exact IH].
  - destruct (f x); [now constructor|exact IH].
Qed.

Ltac use_rem :=
  match goal with
  | Hrem : forall s : State, _ |- context [removePending ?a ?s] =>
      let H1 := fresh in let H2 := fresh in
      destruct (Hrem s) as [H1 H2];
      split; [intros ?; rewrite H1|rewrite H2]; reflexivity
  end.

Section Order.

Variable env : Env.
Variable bridge : string.

(** A visit leaves the values of the elements and the count of the
    iterations as they are. *)
Lemma handle_keeps_values (a : ptr) (st : State) :
  (forall q, valueOf (pending (handle env bridge a st)) q = valueOf (pending st) q)
  /\ iterations (handle env bridge a st) = iterations st.
Proof.
  assert (Hrem : forall s : State,
            (forall q, valueOf (pending (removePending a s)) q = valueOf (pending s) q)
            /\ iterations (removePending a s) = iterations s).
  { intros s. unfold removePending, setPending, panic.
    destruct (Remove a (pending s)) as [l'|] eqn:Hr; cbn [pending iterations]; [|auto].
    split; [|reflexivity]. intros q. exact (Remove_keeps_values _ _ _ Hr q). }
  unfold handle. cbn [pending clock world iterations visits log panicked].
  destruct (valueOf (pending st) a) as [asg|]; [|now cbn].
  unfold Now. cbv zeta. cbn [fst snd note pending clock world iterations visits log panicked].
  destruct (_ >? _)%Z; [use_rem|].
  destruct (containerByMount _ _ _) as [cid|]; [|now cbn].
  destruct (pidByContainer _ _ _) as [pid|]; [|now cbn].
  destruct (Engine.attachPodToBridge _ _ _ _ _) as [[err|msg] w'];
    [use_rem|now cbn].
Qed.

Lemma scan_keeps_values (fuel : nat) (a : option ptr) (st st' : State) :
  scan env bridge fuel a st = Some st' ->
  (forall q, valueOf (pending st') q = valueOf (pending st) q)
  /\ iterations st' = iterations st.
Proof.
  revert a st. induction fuel as [|fuel IH]; intros [p|] st H; cbn in H;
    try discriminate; try (injection H as <-; now split).
  destruct (handle_keeps_values p st) as [Hv Hi].
  destruct (panicked (handle env bridge p st)).
  - injection H as <-. now split.
  - destruct (IH _ _ H) as [Hv' Hi']. split; [|congruence].
    intros q. now rewrite Hv', Hv.
Qed.

(** One iteration keeps the list in the order of the arrivals. *)
Lemma iteration_order (st : State) (ids : list ptr) :
  invariant st ids -> panicked st = false ->
  sublist (omap (valueOf (pending st)) ids) (arrived env (iterations st)) ->
  exists st' ids',
    iteration env bridge st = Some st'
    /\ invariant st' ids'
    /\ sublist (omap (valueOf (pending st')) ids') (arrived env (iterations st'))
    /\ iterations st' = S (iterations st).
Proof.
  intros Hinv Hp Hsub.
  destruct (PassFacts.iteration_shape env bridge st ids Hinv Hp)
    as (st' & visited & rest & Hit & Hsplit & _ & Hcases).
  pose proof Hit as Hscan. unfold iteration in Hscan.
  destruct (PassFacts.receive_shape env st ids Hinv Hp) as (_ & Hp1 & _ & Hi1).
  cbn [panicked pending] in Hscan. rewrite Hp1 in Hscan.
  apply scan_keeps_values in Hscan as [Hv Hi]. cbn [pending iterations] in Hv, Hi.
  rewrite Hi1 in Hi.
  assert (Hall : sublist (omap (valueOf (pending st')) (ids ++ arrival env st))
                         (arrived env (iterations st'))).
  { rewrite Hi, arrived_S, omap_app. apply sublist_app.
    - rewrite (omap_ext_in _ (valueOf (pending st))); [exact Hsub|].
      intros p Hin. rewrite Hv. unfold receive.
      destruct (received env (iterations st)) as [asg|]; [|reflexivity].
      destruct (PushBack_represents _ _ asg (proj1 Hinv)) as (l' & Hpush & _ & Hval & _).
      rewrite Hpush. cbn [setPending pending]. unfold valueOf. 
      change (valueAt (heap l') p = valueAt (heap (pending st)) p).
      rewrite Hval. destruct (decide _) as [->|]; [|reflexivity].
      destruct (rep_values _ _ _ (proj1 Hinv) _ Hin) as [v Hval0].
      unfold valueAt in Hval0.
      rewrite (lookup_ge_None_2 (heap (pending st)) (length (heap (pending st)))) in Hval0
        by lia.
      discriminate.
    - unfold arrival, receive in *.
      destruct (received env (iterations st)) as [asg|]; [|constructor].
      destruct (PushBack_represents _ _ asg (proj1 Hinv)) as (l' & Hpush & _ & Hval & _).
      assert (Hnew : valueOf (pending st') (length (heap (pending st))) = Some asg).
      { rewrite Hv, Hpush. cbn [setPending pending].
        change (valueAt (heap l') (length (heap (pending st))) = Some asg).
        rewrite Hval. now destruct (decide _). }
      cbn. now rewrite Hnew. }
  destruct Hcases as [[Hinv' _]|(v & a & Hvis & _ & Hinv')].
  - exists st', (ids ++ arrival env st). auto.
  - exists st', (v ++ rest). split; [exact Hit|]. split; [exact Hinv'|].
    split; [|exact Hi].
    etransitivity; [|exact Hall]. apply omap_sublist.
    rewrite Hsplit, Hvis, <- app_assoc. apply sublist_app; [reflexivity|].
    cbn. now constructor.
Qed.

Lemma run_order (n : nat) (st : State) (ids : list ptr) :
  invariant st ids -> panicked st = false ->
  sublist (omap (valueOf (pending st)) ids) (arrived env (iterations st)) ->
  exists st' ids',
    run env bridge n st = Some st'
    /\ invariant st' ids'
    /\ sublist (omap (valueOf (pending st')) ids') (arrived env (iterations st'))
    /\ iterations st' <= iterations st + n
    /\ (panicked st' = false -> iterations st' = iterations st + n).
Proof.
  revert st ids. induction n as [|n IH]; intros st ids Hinv Hp Hsub.
  { exists st, ids. cbn [run].
    refine (conj eq_refl (conj Hinv (conj Hsub (conj _ _)))); intros; lia. }
  cbn [run].
  destruct (iteration_order st ids Hinv Hp Hsub)
    as (st1 & ids1 & -> & Hinv1 & Hsub1 & Hi1).
  destruct (panicked st1) eqn:Hp1.
  - exists st1, ids1.
    refine (conj eq_refl (conj Hinv1 (conj Hsub1 (conj _ _)))); [lia|congruence].
  - destruct (IH st1 ids1 Hinv1 Hp1 Hsub1) as (st' & ids' & Hrun & Hinv' & Hsub' & Hle & Heq).
    exists st', ids'.
    refine (conj Hrun (conj Hinv' (conj Hsub' (conj _ _)))); [lia|].
    intros H. rewrite (Heq H). lia.
Qed.

(** The worker keeps the assignments in the order they arrived in: after
    any number of iterations of the loop of attachPods, the assignments on
    the list, from front to back, are a subsequence of the assignments
    received so far. The list never holds an assignment that was not
    received, never holds one more often than it was received, and never
    has two of them in another order than they were received in. The
    worker has made all [n] iterations unless it panicked. *)
Theorem pending_in_arrival_order (n : nat) (clk : Clock) (w : Engine.World) :
  exists st,
    run env bridge n (start clk w) = Some st
    /\ sublist (waiting st) (arrived env (iterations st))
    /\ iterations st <= n
    /\ (panicked st = false -> iterations st = n).
Proof.
  destruct (run_order n (start clk w) [] (start_invariant clk w) eq_refl)
    as (st & ids & Hrun & Hinv & Hsub & Hle & Heq).
  { cbn. apply sublist_nil_l. }
  exists st. unfold waiting. rewrite (toList_represents _ _ (proj1 Hinv)).
  auto.
Qed.

(** The engine is called for the element of the visit only, with the
    device ID of the assignment the element carries. *)
Lemma handle_attaches (a : ptr) (st : State) (e : Event) :
  In e (log (handle env bridge a st)) ->
  In e (log st)
  \/ (exists asg, valueOf (pending st) a = Some asg /\ e = Handling a (DeviceID asg))
  \/ e = TimedOut a
  \/ (exists asg pid r,
        valueOf (pending st) a = Some asg /\ e = Attach a (DeviceID asg) pid r).
Proof.
  assert (Hrem : forall s : State, log (removePending a s) = log s).
  { intros s. unfold removePending, setPending, panic.
    now destruct (Remove a (pending s)). }
  unfold handle. cbn [pending clock world iterations visits log panicked].
  destruct (valueOf (pending st) a) as [asg|]; [|cbn; auto].
  unfold Now. cbv zeta. cbn [fst snd].
  destruct (_ >? _)%Z.
  { rewrite Hrem. cbn [note log]. rewrite <- app_assoc.
    intros H. apply in_app_or in H as [H|[<-|[<-|[]]]]; eauto 6. }
  destruct (containerByMount _ _ _) as [cid|].
  2:{ cbn [note log]. intros H. apply in_app_or in H as [H|[<-|[]]]; eauto 6. }
  destruct (pidByContainer _ _ _) as [pid|].
  2:{ cbn [note log]. intros H. apply in_app_or in H as [H|[<-|[]]]; eauto 6. }
  destruct (Engine.attachPodToBridge _ _ _ _ _) as [[err|msg] w'];
    rewrite ?Hrem; unfold panic; cbn [note log]; rewrite <- app_assoc;
    intros H; apply in_app_or in H as [H|[<-|[<-|[]]]]; eauto 8.
Qed.

(** What the worker holds and what it has attached was received. *)
Lemma scan_received (fuel : nat) (a : option ptr) (st st' : State) :
  scan env bridge fuel a st = Some st' ->
  (forall q v, valueOf (pending st) q = Some v -> In v (arrived env (iterations st))) ->
  (forall p nic pid r, In (Attach p nic pid r) (log st) ->
     exists asg, In asg (arrived env (iterations st)) /\ nic = DeviceID asg) ->
  forall p nic pid r, In (Attach p nic pid r) (log st') ->
    exists asg, In asg (arrived env (iterations st')) /\ nic = DeviceID asg.
Proof.
  revert a st. induction fuel as [|fuel IH]; intros [p|] st H Hval Hlog; cbn in H;
    try discriminate; try (injection H as <-; exact Hlog).
  destruct (handle_keeps_values p st) as [Hv Hi].
  assert (Hlog' : forall p0 nic pid r,
            In (Attach p0 nic pid r) (log (handle env bridge p st)) ->
            exists asg, In asg (arrived env (iterations (handle env bridge p st)))
                        /\ nic = DeviceID asg).
  { intros p0 nic pid r Hin. rewrite Hi.
    apply handle_attaches in Hin
      as [Hin|[(asg & _ & [=])|[[=]|(asg & pid' & r' & Hasg & [= -> -> -> ->])]]].
    - exact (Hlog _ _ _ _ Hin).
    - exists asg. split; [exact (Hval _ _ Hasg)|reflexivity]. }
  destruct (panicked (handle env bridge p st)).
  - injection H as <-. exact Hlog'.
  - apply (IH _ _ H); [|exact Hlog'].
    intros q v. rewrite Hv, Hi. apply Hval.
Qed.

Lemma iteration_received (st st' : State) (ids : list ptr) :
  invariant st ids -> panicked st = false ->
  iteration env bridge st = Some st' ->
  (forall q v, valueOf (pending st) q = Some v -> In v (arrived env (iterations st))) ->
  (forall p nic pid r, In (Attach p nic pid r) (log st) ->
     exists asg, In asg (arrived env (iterations st)) /\ nic = DeviceID asg) ->
  (forall q v, valueOf (pending st') q = Some v -> In v (arrived env (iterations st')))
  /\ (forall p nic pid r, In (Attach p nic pid r) (log st') ->
        exists asg, In asg (arrived env (iterations st')) /\ nic = DeviceID asg).
Proof.
  intros Hinv Hp Hit Hval Hlog.
  destruct (PassFacts.receive_shape env st ids Hinv Hp) as (_ & Hp1 & Hl1 & Hi1).
  unfold iteration in Hit. cbn [panicked pending] in Hit. rewrite Hp1 in Hit.
  set (st1 := mkState _ _ _ _ _ _ _) in Hit.
  assert (Hval1 : forall q v, valueOf (pending st1) q = Some v ->
                              In v (arrived env (iterations st1))).
  { intros q v. cbn [st1 pending iterations]. rewrite Hi1, arrived_S. unfold receive.
    destruct (received env (iterations st)) as [asg|].
    2:{ intros H. apply in_or_app. left. exact (Hval _ _ H). }
    destruct (PushBack_represents _ _ asg (proj1 Hinv)) as (l' & Hpush & _ & Hv & _).
    rewrite Hpush. cbn [setPending pending].
    change (valueAt (heap l') q = Some v -> In v (arrived env (iterations st) ++ [asg])).
    rewrite Hv. destruct (decide _).
    - intros [= <-]. apply in_or_app. right. now left.
    - intros H. apply in_or_app. left. exact (Hval _ _ H). }
  assert (Hlog1 : forall p nic pid r, In (Attach p nic pid r) (log st1) ->
            exists asg, In asg (arrived env (iterations st1)) /\ nic = DeviceID asg).
  { intros p nic pid r. cbn [st1 log iterations]. rewrite Hl1, Hi1, arrived_S.
    intros H. destruct (Hlog _ _ _ _ H) as (asg & Hin & ->).
    exists asg. split; [apply in_or_app; now left|reflexivity]. }
  split; [|exact (scan_received _ _ _ _ Hit Hval1 Hlog1)].
  destruct (scan_keeps_values _ _ _ _ Hit) as [Hv Hi].
  intros q v. rewrite Hv, Hi. apply Hval1.
Qed.

Lemma run_received (n : nat) (st : State) (ids : list ptr) :
  invariant st ids -> panicked st = false ->
  (forall q v, valueOf (pending st) q = Some v -> In v (arrived env (iterations st))) ->
  (forall p nic pid r, In (Attach p nic pid r) (log st) ->
     exists asg, In asg (arrived env (iterations st)) /\ nic = DeviceID asg) ->
  exists st',
    run env bridge n st = Some st'
    /\ (forall p nic pid r, In (Attach p nic pid r) (log st') ->
          exists asg, In asg (arrived env (iterations st')) /\ nic = DeviceID asg).
Proof.
  revert st ids. induction n as [|n IH]; intros st ids Hinv Hp Hval Hlog; [cbn; eauto|].
  cbn [run].
  destruct (iteration_invariant env bridge st ids Hinv Hp) as (st1 & ids1 & Hit & Hinv1).
  destruct (iteration_received st st1 ids Hinv Hp Hit Hval Hlog) as [Hval1 Hlog1].
  rewrite Hit. destruct (panicked st1) eqn:Hp1; eauto.
Qed.

(** The worker attaches what was allocated, and nothing else: every call
    of attachPodToBridge it makes is for the device ID of an assignment it
    received on the channel. *)
Theorem attached_were_received (n : nat) (clk : Clock) (w : Engine.World) :
  exists st,
    run env bridge n (start clk w) = Some st
    /\ forall p nic pid r,
         In (Attach p nic pid r) (log st) ->
         exists asg, In asg (arrived env (iterations st)) /\ nic = DeviceID asg.
Proof.
  apply (run_received n (start clk w) [] (start_invariant clk w) eq_refl).
  - intros [|[|q]] v; cbn; discriminate.
  - intros p nic pid r [].
Qed.

End Order.

End OrderFacts.
